(** * asyncirc: the connection engine of [asyncirc/irc.py]

    A shallow embedding of the IRC protocol engine and the properties of
    its framing loop, outbound queue, protocol operations, hostmask
    resolver and reconnection logic.

    Layout: the Python built-ins the module relies on ([Py]), the data
    model, the methods of [IRCProtocol] in a state-and-exception monad,
    the module-level functions over a heap of protocol objects, and then
    the theorems. *)

From Stdlib Require Import Strings.String Strings.Ascii Strings.Byte.
From Stdlib Require Import NArith QArith Bool Lia.
From Stdlib Require Import List.
From stdpp Require Import base list.
Import ListNotations.

(* ================================================================== *)
(** * Python built-ins used by the module *)
(* ================================================================== *)

Module Py.

(** A Python [str] is a sequence of Unicode code points; a [bytes] object
    is a sequence of octets. *)
Definition codepoint := N.
Definition str := list codepoint.
Definition bytes := list byte.

(** An ASCII literal of the source as a [str]. *)
Definition lit (s : string) : str :=
  map N_of_ascii (list_ascii_of_string s).

(** An ASCII literal of the source as a [bytes] object ([b"..."]). *)
Definition blit (s : string) : bytes :=
  map byte_of_ascii (list_ascii_of_string s).

Definition str_eq_dec : forall a b : str, {a = b} + {a <> b} :=
  List.list_eq_dec N.eq_dec.

(** The exceptions that the modelled code can raise. *)
Inductive exn :=
| UnicodeDecodeError
| UnicodeEncodeError
| IndexError
| ValueError
| TypeError
| AttributeError.

(** ** [bytes.decode()] and [str.encode()]: strict UTF-8 *)

Local Open Scope N_scope.

Definition between (lo hi n : N) : bool := (lo <=? n) && (n <=? hi).

(** Continuation octet [10xxxxxx]. *)
Definition is_cont (n : N) : bool := between 0x80 0xBF n.

(** Strict UTF-8 (no overlong forms, no surrogates, nothing above
    U+10FFFF), as [bytes.decode()] with its default arguments.
    [None] stands for [UnicodeDecodeError]. *)
Fixpoint utf8_decode (bs : bytes) : option str :=
  match bs with
  | [] => Some []
  | b0 :: r0 =>
    let n0 := Byte.to_N b0 in
    if n0 <? 0x80 then
      option_map (cons n0) (utf8_decode r0)
    else if between 0xC2 0xDF n0 then
      match r0 with
      | b1 :: r1 =>
        let n1 := Byte.to_N b1 in
        if is_cont n1 then
          option_map (cons ((n0 - 0xC0) * 64 + (n1 - 0x80))) (utf8_decode r1)
        else None
      | _ => None
      end
    else if between 0xE0 0xEF n0 then
      match r0 with
      | b1 :: b2 :: r2 =>
        let n1 := Byte.to_N b1 in
        let n2 := Byte.to_N b2 in
        let lo := if n0 =? 0xE0 then 0xA0 else 0x80 in
        let hi := if n0 =? 0xED then 0x9F else 0xBF in
        if between lo hi n1 && is_cont n2 then
          option_map
            (cons ((n0 - 0xE0) * 4096 + (n1 - 0x80) * 64 + (n2 - 0x80)))
            (utf8_decode r2)
        else None
      | _ => None
      end
    else if between 0xF0 0xF4 n0 then
      match r0 with
      | b1 :: b2 :: b3 :: r3 =>
        let n1 := Byte.to_N b1 in
        let n2 := Byte.to_N b2 in
        let n3 := Byte.to_N b3 in
        let lo := if n0 =? 0xF0 then 0x90 else 0x80 in
        let hi := if n0 =? 0xF4 then 0x8F else 0xBF in
        if between lo hi n1 && is_cont n2 && is_cont n3 then
          option_map
            (cons ((n0 - 0xF0) * 262144 + (n1 - 0x80) * 4096
                   + (n2 - 0x80) * 64 + (n3 - 0x80)))
            (utf8_decode r3)
        else None
      | _ => None
      end
    else None
  end.

(** The octet with value [n] (for [n < 256]). *)
Definition octet (n : N) : byte :=
  match Byte.of_N n with
  | Some b => b
  | None => x00
  end.

(** UTF-8 encoding of one code point; surrogates (U+D800..U+DFFF) are
    refused, as [str.encode()] does. *)
Definition utf8_encode_cp (c : codepoint) : option bytes :=
  if c <? 0x80 then Some [octet c]
  else if c <? 0x800 then
    Some [octet (0xC0 + c / 64); octet (0x80 + c mod 64)]
  else if c <? 0x10000 then
    if between 0xD800 0xDFFF c then None
    else Some [octet (0xE0 + c / 4096);
               octet (0x80 + (c / 64) mod 64);
               octet (0x80 + c mod 64)]
  else if c <? 0x110000 then
    Some [octet (0xF0 + c / 262144);
          octet (0x80 + (c / 4096) mod 64);
          octet (0x80 + (c / 64) mod 64);
          octet (0x80 + c mod 64)]
  else None.

(** [str.encode()]; [None] stands for [UnicodeEncodeError]. *)
Fixpoint utf8_encode (s : str) : option bytes :=
  match s with
  | [] => Some []
  | c :: r =>
    match utf8_encode_cp c, utf8_encode r with
    | Some b, Some br => Some (b ++ br)
    | _, _ => None
    end
  end.

(** ** [str.strip()] *)

(** [str.isspace] on one code point: the code points whose bidirectional
    class is WS, B or S, or whose category is Zs. *)
Definition isspace (c : codepoint) : bool :=
  between 0x09 0x0D c || between 0x1C 0x20 c
  || (c =? 0x85) || (c =? 0xA0) || (c =? 0x1680)
  || between 0x2000 0x200A c
  || (c =? 0x2028) || (c =? 0x2029) || (c =? 0x202F)
  || (c =? 0x205F) || (c =? 0x3000).

Fixpoint lstrip (s : str) : str :=
  match s with
  | c :: r => if isspace c then lstrip r else s
  | [] => []
  end.

Definition rstrip (s : str) : str := rev (lstrip (rev s)).

(** [s.strip()] with no argument removes whitespace at both ends. *)
Definition strip (s : str) : str := rstrip (lstrip s).

(** ** Searching and slicing *)

Definition LF : codepoint := 10.

(** [c in s] for a one-character needle. *)
Definition contains (c : codepoint) (s : str) : bool :=
  existsb (N.eqb c) s.

(** [s.index(c)] for a one-character needle; [None] stands for
    [ValueError]. *)
Fixpoint index (c : codepoint) (s : str) : option nat :=
  match s with
  | [] => None
  | x :: r => if N.eqb c x then Some O else option_map S (index c r)
  end.

(** [sep.join(parts)]. *)
Fixpoint join (sep : str) (parts : list str) : str :=
  match parts with
  | [] => []
  | [p] => p
  | p :: rest => p ++ sep ++ join sep rest
  end.

(** [s.split(c, maxsplit=1)] for a one-character separator: the text
    before the first [c] and the text after it, or [s] alone. *)
Definition split1 (c : codepoint) (s : str) : list str :=
  match index c s with
  | Some i => [firstn i s; skipn (S i) s]
  | None => [s]
  end.

(** ASCII case mapping, the restriction of [str.upper] to U+0000..U+007F. *)
Definition ascii_upper (s : str) : str :=
  map (fun c => if between 0x61 0x7A c then c - 32 else c) s.

End Py.
Import Py.

(* ================================================================== *)
(** * A state-and-exception monad *)
(* ================================================================== *)

(** The result of running a piece of Python code: it returns a value, it
    raises, or the bounded model of one of its loops ran out of steps.
    State changes made before an exception are kept. *)
Inductive outcome (A : Type) :=
| Returned (a : A)
| Raised (e : exn)
| OutOfFuel.
Arguments Returned {A} a.
Arguments Raised {A} e.
Arguments OutOfFuel {A}.

Definition M (S A : Type) : Type := S -> outcome A * S.

Definition ret {S A} (a : A) : M S A := fun s => (Returned a, s).

Definition bind {S A B} (m : M S A) (k : A -> M S B) : M S B :=
  fun s =>
    match m s with
    | (Returned a, s') => k a s'
    | (Raised e, s') => (Raised e, s')
    | (OutOfFuel, s') => (OutOfFuel, s')
    end.

Definition raise {S A} (e : exn) : M S A := fun s => (Raised e, s).

Definition get {S} : M S S := fun s => (Returned s, s).

Definition modify {S} (f : S -> S) : M S unit := fun s => (Returned tt, f s).

(** A built-in that either yields a value or raises [e]. *)
Definition or_raise {S A} (e : exn) (o : option A) : M S A :=
  match o with
  | Some a => ret a
  | None => raise e
  end.

Declare Scope py_scope.
Delimit Scope py_scope with py.
Notation "x <- m ;; k" := (bind m (fun x => k))
  (at level 100, m at next level, right associativity) : py_scope.
Notation "m ;; k" := (bind m (fun _ => k))
  (at level 100, right associativity) : py_scope.
Local Open Scope py_scope.

(** [while cond: body], with a bound on the number of iterations. *)
Fixpoint while_ {S} (fuel : nat) (cond : S -> bool) (body : M S unit)
  : M S unit :=
  fun s =>
    if cond s then
      match fuel with
      | O => (OutOfFuel, s)
      | Datatypes.S n => (body ;; while_ n cond body) s
      end
    else (Returned tt, s).

(** [for x in xs: body x]. *)
Fixpoint for_ {S A} (xs : list A) (body : A -> M S unit) : M S unit :=
  match xs with
  | [] => ret tt
  | x :: r => body x ;; for_ r body
  end.

(* ================================================================== *)
(** * Data model *)
(* ================================================================== *)

(** Objects live on a heap; a reference is an index into it. *)
Definition ref := nat.
Definition wref := nat.

(** What [writeln] may be given: text, or an already encoded line
    (see the [isinstance(line, bytes)] test of [_writeln]). *)
Inductive line :=
| Str (s : str)
| Bytes (b : bytes).

(** The dict stored as [server_info]:
    [{"host": server, "port": port, "ssl": use_ssl}]. *)
Record ServerInfo := {
  host : str;
  port : N;
  ssl : bool
}.

(** The transport: the peer it was opened to, and the byte strings handed
    to [socket.send], oldest first. *)
Record Transport := {
  peer : ServerInfo;
  sent : list bytes
}.

(** The sender of a signal (the positional argument of blinker's
    [send]). *)
Inductive sender :=
| FromProtocol (r : ref)
| FromWrapper (w : option wref)
| FromText (s : str).

(** One emission [signal(name).send(sender, text=...)]; [text] is [None]
    when the call passes no [text] keyword. *)
Record Signal := {
  name : string;
  from : sender;
  text : option str
}.

(** One call [loop.call_later(delay, obj.process_queue)]. *)
Record TimerHandle := {
  delay : Q;
  callback : ref
}.

(** The instance attributes of an [IRCProtocol] (its logger is left out;
    logging has no effect on the state modelled here). [last_ping] is
    [None] for [float('inf')]; [server_info] is [None] as long as the
    attribute has not been set on the object. *)
Record IRCProtocol := {
  transport : Transport;
  wrapper : option wref;
  last_ping : option Q;
  last_pong : Q;
  buf : str;
  old_nickname : option str;
  nickname : str;
  server_supports : list (str * str);
  queue : list line;
  queue_timer : Q;
  caps : list str;
  server_info : option ServerInfo
}.

Definition set_transport (v : Transport) (c : IRCProtocol) : IRCProtocol :=
  {| transport := v; wrapper := wrapper c; last_ping := last_ping c;
     last_pong := last_pong c; buf := buf c; old_nickname := old_nickname c;
     nickname := nickname c; server_supports := server_supports c;
     queue := queue c; queue_timer := queue_timer c; caps := caps c;
     server_info := server_info c |}.

Definition set_wrapper (v : option wref) (c : IRCProtocol) : IRCProtocol :=
  {| transport := transport c; wrapper := v; last_ping := last_ping c;
     last_pong := last_pong c; buf := buf c; old_nickname := old_nickname c;
     nickname := nickname c; server_supports := server_supports c;
     queue := queue c; queue_timer := queue_timer c; caps := caps c;
     server_info := server_info c |}.

Definition set_last_ping (v : option Q) (c : IRCProtocol) : IRCProtocol :=
  {| transport := transport c; wrapper := wrapper c; last_ping := v;
     last_pong := last_pong c; buf := buf c; old_nickname := old_nickname c;
     nickname := nickname c; server_supports := server_supports c;
     queue := queue c; queue_timer := queue_timer c; caps := caps c;
     server_info := server_info c |}.

Definition set_last_pong (v : Q) (c : IRCProtocol) : IRCProtocol :=
  {| transport := transport c; wrapper := wrapper c; last_ping := last_ping c;
     last_pong := v; buf := buf c; old_nickname := old_nickname c;
     nickname := nickname c; server_supports := server_supports c;
     queue := queue c; queue_timer := queue_timer c; caps := caps c;
     server_info := server_info c |}.

Definition set_buf (v : str) (c : IRCProtocol) : IRCProtocol :=
  {| transport := transport c; wrapper := wrapper c; last_ping := last_ping c;
     last_pong := last_pong c; buf := v; old_nickname := old_nickname c;
     nickname := nickname c; server_supports := server_supports c;
     queue := queue c; queue_timer := queue_timer c; caps := caps c;
     server_info := server_info c |}.

Definition set_old_nickname (v : option str) (c : IRCProtocol) : IRCProtocol :=
  {| transport := transport c; wrapper := wrapper c; last_ping := last_ping c;
     last_pong := last_pong c; buf := buf c; old_nickname := v;
     nickname := nickname c; server_supports := server_supports c;
     queue := queue c; queue_timer := queue_timer c; caps := caps c;
     server_info := server_info c |}.

Definition set_nickname (v : str) (c : IRCProtocol) : IRCProtocol :=
  {| transport := transport c; wrapper := wrapper c; last_ping := last_ping c;
     last_pong := last_pong c; buf := buf c; old_nickname := old_nickname c;
     nickname := v; server_supports := server_supports c;
     queue := queue c; queue_timer := queue_timer c; caps := caps c;
     server_info := server_info c |}.

Definition set_server_supports (v : list (str * str)) (c : IRCProtocol)
  : IRCProtocol :=
  {| transport := transport c; wrapper := wrapper c; last_ping := last_ping c;
     last_pong := last_pong c; buf := buf c; old_nickname := old_nickname c;
     nickname := nickname c; server_supports := v;
     queue := queue c; queue_timer := queue_timer c; caps := caps c;
     server_info := server_info c |}.

Definition set_queue (v : list line) (c : IRCProtocol) : IRCProtocol :=
  {| transport := transport c; wrapper := wrapper c; last_ping := last_ping c;
     last_pong := last_pong c; buf := buf c; old_nickname := old_nickname c;
     nickname := nickname c; server_supports := server_supports c;
     queue := v; queue_timer := queue_timer c; caps := caps c;
     server_info := server_info c |}.

Definition set_queue_timer (v : Q) (c : IRCProtocol) : IRCProtocol :=
  {| transport := transport c; wrapper := wrapper c; last_ping := last_ping c;
     last_pong := last_pong c; buf := buf c; old_nickname := old_nickname c;
     nickname := nickname c; server_supports := server_supports c;
     queue := queue c; queue_timer := v; caps := caps c;
     server_info := server_info c |}.

Definition set_caps (v : list str) (c : IRCProtocol) : IRCProtocol :=
  {| transport := transport c; wrapper := wrapper c; last_ping := last_ping c;
     last_pong := last_pong c; buf := buf c; old_nickname := old_nickname c;
     nickname := nickname c; server_supports := server_supports c;
     queue := queue c; queue_timer := queue_timer c; caps := v;
     server_info := server_info c |}.

Definition set_server_info (v : option ServerInfo) (c : IRCProtocol)
  : IRCProtocol :=
  {| transport := transport c; wrapper := wrapper c; last_ping := last_ping c;
     last_pong := last_pong c; buf := buf c; old_nickname := old_nickname c;
     nickname := nickname c; server_supports := server_supports c;
     queue := queue c; queue_timer := queue_timer c; caps := caps c;
     server_info := v |}.

(** The state a method of one protocol object works on: the object, the
    signals emitted so far and the timers scheduled on the event loop
    (both oldest first). *)
Record Local := {
  this : IRCProtocol;
  signals : list Signal;
  timers : list TimerHandle
}.

Definition on_this (f : IRCProtocol -> IRCProtocol) : M Local unit :=
  modify (fun s =>
    {| this := f (this s); signals := signals s; timers := timers s |}).

Definition self_ : M Local IRCProtocol :=
  s <- get ;; ret (this s).

(** [signal(name).send(sender, text=...)]: the emission is recorded; the
    listeners are external to the engine. *)
Definition send (n : string) (who : sender) (txt : option str)
  : M Local unit :=
  modify (fun s =>
    {| this := this s;
       signals := signals s ++ [{| name := n; from := who; text := txt |}];
       timers := timers s |}).

(** [loop.call_later(delay, obj.process_queue)]. *)
Definition call_later (d : Q) (obj : ref) : M Local unit :=
  modify (fun s =>
    {| this := this s; signals := signals s;
       timers := timers s ++ [{| delay := d; callback := obj |}] |}).

(** [self.transport.get_extra_info('socket').send(data)], on a socket
    that takes the whole of [data]. *)
Definition socket_send (data : bytes) : M Local unit :=
  on_this (fun c =>
    set_transport {| peer := peer (transport c);
                     sent := sent (transport c) ++ [data] |} c).

Definition CRLF : bytes := [x0d; x0a].

(* ================================================================== *)
(** * The methods of [IRCProtocol] *)
(* ================================================================== *)

Section Methods.

(** The object the methods are called on. *)
Variable self : ref.

(** [str.upper], whose Unicode case mapping is not reproduced here. *)
Variable str_upper : str -> str.

(** ** Core helper functions *)

Definition _writeln (l : line) : M Local unit :=
  b <- match l with
       | Bytes b => ret b
       | Str s => or_raise UnicodeEncodeError (utf8_encode s)
       end ;;
  socket_send (b ++ CRLF) ;;
  t <- or_raise UnicodeDecodeError (utf8_decode b) ;;
  send "irc-send" (FromText t) None.

Definition process_queue : M Local unit :=
  c <- self_ ;;
  match queue c with
  | l :: rest => on_this (set_queue rest) ;; _writeln l
  | [] => ret tt
  end ;;
  c <- self_ ;;
  call_later (queue_timer c) self.

Definition writeln (l : line) : M Local unit :=
  on_this (fun c => set_queue (queue c ++ [l]) c).

(** ** Required by [asyncio.Protocol] *)

Definition connection_made (t : Transport) : M Local unit :=
  on_this (set_transport t) ;;
  on_this (set_wrapper None) ;;
  on_this (set_last_ping None) ;;
  on_this (set_last_pong 0%Q) ;;
  on_this (set_buf []) ;;
  on_this (set_old_nickname None) ;;
  on_this (set_nickname []) ;;
  on_this (set_server_supports []) ;;
  on_this (set_queue []) ;;
  on_this (set_queue_timer (3 # 2)%Q) ;;
  on_this (set_caps []) ;;
  send "connected" (FromProtocol self) None ;;
  process_queue.

(** One turn of the framing loop. *)
Definition extract_line : M Local unit :=
  c <- self_ ;;
  index <- or_raise ValueError (index LF (buf c)) ;;
  let line_received := strip (firstn index (buf c)) in
  on_this (set_buf (skipn (index + 1) (buf c))) ;;
  send "raw" (FromProtocol self) (Some line_received).

(** [data] is rebound to the decoded text. The loop takes at least the
    terminator off the buffer in each turn, so it runs at most once per
    buffered character. *)
Definition data_received (data : bytes) : M Local unit :=
  data <- or_raise UnicodeDecodeError (utf8_decode data) ;;
  on_this (fun c => set_buf (buf c ++ data) c) ;;
  c <- self_ ;;
  while_ (length (buf c)) (fun s => contains LF (buf (this s))) extract_line.

(** ** Protocol abstractions *)

Definition default_mode : str := lit "+i".

(** [if password:] holds for a password that is neither [None] nor
    empty. *)
Definition truthy (password : option str) : bool :=
  match password with
  | Some (_ :: _) => true
  | _ => false
  end.

(** ["{}".format(x)] for an optional text. *)
Definition format_option (x : option str) : str :=
  match x with
  | Some s => s
  | None => lit "None"
  end.

(** [mode] has the default [default_mode] and [password] the default
    [None]. *)
Definition register (nick user realname mode : str) (password : option str)
  : M Local unit :=
  (if truthy password
   then writeln (Str (lit "PASS " ++ format_option password))
   else ret tt) ;;
  writeln (Str (lit "USER " ++ user ++ lit " " ++ mode ++ lit " " ++ user
                ++ lit " :" ++ realname)) ;;
  writeln (Str (lit "NICK " ++ nick)) ;;
  send "registration-complete" (FromProtocol self) None ;;
  on_this (set_nickname nick).

(** The argument of [join] and [part]: one channel or a list of them. *)
Inductive channels :=
| Channel (c : str)
| ChannelList (cs : list str).

Definition as_list (chs : channels) : list str :=
  match chs with
  | Channel c => [c]
  | ChannelList cs => cs
  end.

Definition join (chs : channels) : M Local unit :=
  let channels_str := Py.join (lit ",") (as_list chs) in
  writeln (Str (lit "JOIN " ++ channels_str)).

Definition part (chs : channels) : M Local unit :=
  let channels_str := Py.join (lit ",") (as_list chs) in
  writeln (Str (lit "PART " ++ channels_str)).

(** [while message: ...; message = message[400:]]; every turn shortens
    [message], so [length message] turns are enough. *)
Fixpoint say_loop (fuel : nat) (target_str message : str) : M Local unit :=
  match message with
  | [] => ret tt
  | _ :: _ =>
    match fuel with
    | O => fun s => (OutOfFuel, s)
    | S n =>
      writeln (Str (lit "PRIVMSG " ++ target_str ++ lit " :"
                    ++ firstn 400 message)) ;;
      say_loop n target_str (skipn 400 message)
    end
  end.

Definition say (target_str message : str) : M Local unit :=
  say_loop (length message) target_str message.

(** ** Catch-all *)

(** The keys of the instance dict once [connection_made] has run. *)
Definition instance_dict (c : IRCProtocol) : list str :=
  map lit ["transport"; "wrapper"; "logger"; "last_ping"; "last_pong";
           "buf"; "old_nickname"; "nickname"; "server_supports"; "queue";
           "queue_timer"; "caps"]%string
  ++ match server_info c with
     | Some _ => [lit "server_info"]
     | None => []
     end.

Definition _send_command (attr : str) (args : list str) : M Local unit :=
  let joined := Py.join (lit " ") (removelast args) in
  last_arg <- or_raise IndexError (last args) ;;
  let argstr := joined ++ lit " :" ++ last_arg in
  writeln (Str (str_upper attr ++ lit " " ++ argstr)).

(** What [__getattr__] hands back: the value of an instance attribute, or
    the closure [_send_command]. *)
Inductive attribute :=
| InstanceAttr (key : str)
| SendCommand (f : list str -> M Local unit).

Definition __getattr__ (attr : str) : M Local attribute :=
  c <- self_ ;;
  if in_dec str_eq_dec attr (instance_dict c)
  then ret (InstanceAttr attr)
  else ret (SendCommand (_send_command attr)).

(** An attribute-style call [conn.attr( *args )] that reaches the
    catch-all; an instance attribute is not callable. *)
Definition call_fallback (attr : str) (args : list str) : M Local unit :=
  a <- __getattr__ attr ;;
  match a with
  | SendCommand f => f args
  | InstanceAttr _ => raise TypeError
  end.

End Methods.

(* ================================================================== *)
(** * The hostmask resolver *)
(* ================================================================== *)

Module User.

Record t := {
  nick : option str;
  user : option str;
  host : str;
  hostmask : str;
  _register_wait : N
}.

Definition __init__ (nick user : option str) (host : str) : t :=
  {| nick := nick; user := user; host := host;
     hostmask := format_option nick ++ lit "!" ++ format_option user
                 ++ lit "@" ++ host;
     _register_wait := 0 |}.

Definition bang : codepoint := 33%N.
Definition at_sign : codepoint := 64%N.

(** Unpacking [a, b = parts] raises [ValueError] unless [parts] has
    exactly two items. *)
Definition from_hostmask (hostmask : str) : outcome t :=
  if contains bang hostmask && contains at_sign hostmask then
    match split1 bang hostmask with
    | [nick; userhost] =>
      match split1 at_sign userhost with
      | [user; host] => Returned (__init__ (Some nick) (Some user) host)
      | _ => Raised ValueError
      end
    | _ => Raised ValueError
    end
  else Returned (__init__ None None hostmask).

End User.

(** [get_user] hands back the text itself when it is no hostmask. *)
Definition get_user (hostmask : str) : outcome (str + User.t) :=
  if negb (contains User.bang hostmask) || negb (contains User.at_sign hostmask)
  then Returned (inl hostmask)
  else match User.from_hostmask hostmask with
       | Returned u => Returned (inr u)
       | Raised e => Raised e
       | OutOfFuel => OutOfFuel
       end.

Definition get_channel (channel : str) : str := channel.

Definition get_target (x : str) : str := x.

(* ================================================================== *)
(** * Plugins *)
(* ================================================================== *)

Section Plugins.

(** The module-level state: the global list [plugins]; whatever else an
    import may touch is the type [G]. *)
Variable G : Type.

(** [importlib.import_module]; what importing a plugin does is up to the
    plugin. *)
Variable import_module : str -> M (list str * G) unit.

Definition plugin_registered_handler (plugin_name : str)
  : M (list str * G) unit :=
  modify (fun s => (fst s ++ [plugin_name], snd s)).

(** The parameter [plugins] hides the global of the same name: the
    membership test looks at the argument tuple. *)
Definition load_plugins (plugins : list str) : M (list str * G) unit :=
  for_ plugins (fun plugin =>
    if negb (if in_dec str_eq_dec plugin plugins then true else false)
    then import_module plugin
    else ret tt).

End Plugins.

(* ================================================================== *)
(** * Wrappers and the public functional API *)
(* ================================================================== *)

Record IRCProtocolWrapper := {
  protocol : ref
}.

(** The heap of protocol objects and of wrappers, the signals emitted and
    the timers scheduled. *)
Record World := {
  heap : list IRCProtocol;
  wrappers : list IRCProtocolWrapper;
  bus : list Signal;
  loop : list TimerHandle
}.

(** An [IRCProtocol] on which [connection_made] has not run yet. *)
Definition blank : IRCProtocol :=
  {| transport := {| peer := {| host := []; port := 0; ssl := false |};
                     sent := [] |};
     wrapper := None; last_ping := None; last_pong := 0%Q; buf := [];
     old_nickname := None; nickname := []; server_supports := [];
     queue := []; queue_timer := 0%Q; caps := []; server_info := None |}.

(** Run a method on the object at [r]. *)
Definition at_ {A} (r : ref) (m : M Local A) : M World A :=
  fun w =>
    match heap w !! r with
    | Some c =>
      let '(res, s) :=
        m {| this := c; signals := bus w; timers := loop w |} in
      (res, {| heap := <[r := this s]> (heap w); wrappers := wrappers w;
               bus := signals s; loop := timers s |})
    | None => (Raised AttributeError, w)
    end.

Definition new_protocol : M World ref :=
  fun w =>
    (Returned (length (heap w)),
     {| heap := heap w ++ [blank]; wrappers := wrappers w;
        bus := bus w; loop := loop w |}).

Definition new_wrapper (p : ref) : M World wref :=
  fun w =>
    (Returned (length (wrappers w)),
     {| heap := heap w; wrappers := wrappers w ++ [{| protocol := p |}];
        bus := bus w; loop := loop w |}).

Section API.

Variable str_upper : str -> str.

(** [loop.run_until_complete(loop.create_connection(IRCProtocol, ...))] on
    a network that accepts the connection: a protocol object is made and
    [connection_made] runs on it with the new transport. *)
Definition create_connection (info : ServerInfo) : M World ref :=
  (p <- new_protocol ;;
   at_ p (connection_made p {| peer := info; sent := [] |}) ;;
   ret p)%py.

Definition connect (server : str) (port : N) (use_ssl : bool) : M World wref :=
  (p <- create_connection {| host := server; port := port; ssl := use_ssl |} ;;
   w <- new_wrapper p ;;
   at_ p (on_this (set_wrapper (Some w))) ;;
   at_ p (on_this (set_server_info
            (Some {| host := server; port := port; ssl := use_ssl |}))) ;;
   ret w)%py.

(** [getattr(protocol, "server_info")]: the value in the instance dict
    when the attribute has been set, the answer of the catch-all
    otherwise. *)
Definition getattr_server_info : M Local (ServerInfo + attribute) :=
  (c <- self_ ;;
   match server_info c with
   | Some info => ret (inl info)
   | None => a <- __getattr__ str_upper (lit "server_info") ;; ret (inr a)
   end)%py.

(** [w.protocol] for a wrapper object [w]. *)
Definition wrapper_protocol (w : wref) : M World ref :=
  fun s =>
    match wrappers s !! w with
    | Some wr => (Returned (protocol wr), s)
    | None => (Raised AttributeError, s)
    end.

(** [w.protocol = p]. *)
Definition set_wrapper_protocol (w : wref) (p : ref) : M World unit :=
  modify (fun s =>
    {| heap := heap s; wrappers := <[w := {| protocol := p |}]> (wrappers s);
       bus := bus s; loop := loop s |}).

(** [reconnect] is handed the sender of [connection-lost], which is the
    [wrapper] attribute of the protocol: a wrapper or [None]. Reading
    [server_info] off [None] raises [AttributeError]; unpacking with [**]
    something that is no mapping raises [TypeError]. *)
Definition reconnect (client_wrapper : option wref) : M World unit :=
  (cw <- or_raise AttributeError client_wrapper ;;
   old <- wrapper_protocol cw ;;
   v <- at_ old getattr_server_info ;;
   info <- match v with
           | inl info => ret info
           | inr _ => raise TypeError
           end ;;
   p <- create_connection info ;;
   set_wrapper_protocol cw p)%py.

(** [connection_lost]: the signal is sent with the wrapper as sender, and
    [reconnect], connected to it when the module is loaded, runs. *)
Definition connection_lost (self : ref) : M World unit :=
  (w <- at_ self (c <- self_ ;; ret (wrapper c)) ;;
   at_ self (send "connection-lost" (FromWrapper w) None) ;;
   reconnect w)%py.

End API.

(* ================================================================== *)
(** * Vocabulary of the statements *)
(* ================================================================== *)

(** A protocol object on which nothing has happened yet, alone with the
    event bus and the loop. *)
Definition fresh : Local := {| this := blank; signals := []; timers := [] |}.

(** ** Framing *)

(** Terminated lines followed by a partial remainder. *)
Definition frame (lines : list str) (rem : str) : str :=
  List.concat (map (fun l => l ++ [LF]) lines) ++ rem.

Definition no_LF (s : str) : Prop := ~ In LF s.

(** The [raw] signal for one line. *)
Definition raw (self : ref) (txt : str) : Signal :=
  {| name := "raw"; from := FromProtocol self; text := Some txt |}.

(** Feeding the chunks to the byte-receipt handler one after the other. *)
Definition feed (self : ref) (chunks : list bytes) : M Local unit :=
  for_ chunks (data_received self).

(** The state once lines have been framed: the remainder is buffered and
    one [raw] signal per line was emitted. *)
Definition framed (self : ref) (texts : list str) (rem : str) (s : Local)
  : Local :=
  {| this := set_buf rem (this s);
     signals := signals s ++ map (raw self) texts;
     timers := timers s |}.

(** ** Outbound queue *)

(** The state once [ls] have been appended to the outbound queue. *)
Definition enqueued (ls : list line) (s : Local) : Local :=
  {| this := set_queue (queue (this s) ++ ls) (this s);
     signals := signals s; timers := timers s |}.

(** The state once [b] and the terminator went to the socket and
    [irc-send] was emitted with the text [t] as its sender. *)
Definition written (b : bytes) (t : str) (s : Local) : Local :=
  {| this := set_transport
               {| peer := peer (transport (this s));
                  sent := sent (transport (this s)) ++ [b ++ CRLF] |}
               (this s);
     signals := signals s
                ++ [{| name := "irc-send"; from := FromText t; text := None |}];
     timers := timers s |}.

(** The octets a queued line stands for, when the low-level write accepts
    it: text that can be encoded, or octets that can be decoded. *)
Definition encoded (l : line) : option bytes :=
  match l with
  | Str s => utf8_encode s
  | Bytes b => match utf8_decode b with Some _ => Some b | None => None end
  end.

(** [k] firings of the drain timer. *)
Fixpoint firings (self : ref) (k : nat) : M Local unit :=
  match k with
  | O => ret tt
  | S k' => process_queue self ;; firings self k'
  end.

(** The timer a firing leaves behind. *)
Definition tick (self : ref) (s : Local) : TimerHandle :=
  {| delay := queue_timer (this s); callback := self |}.

(** ** Protocol operations *)

Definition pass_line (password : str) : line := Str (lit "PASS " ++ password).

Definition user_line (user mode realname : str) : line :=
  Str (lit "USER " ++ user ++ lit " " ++ mode ++ lit " " ++ user
       ++ lit " :" ++ realname).

Definition nick_line (nick : str) : line := Str (lit "NICK " ++ nick).

(** The state [register] leaves behind when it enqueues [ls]. *)
Definition registered (self : ref) (nick : str) (ls : list line) (s : Local)
  : Local :=
  {| this := set_nickname nick (set_queue (queue (this s) ++ ls) (this s));
     signals := signals s
                ++ [{| name := "registration-complete";
                       from := FromProtocol self; text := None |}];
     timers := timers s |}.

Definition privmsg (target chunk : str) : line :=
  Str (lit "PRIVMSG " ++ target ++ lit " :" ++ chunk).

(** The successive substrings of at most [n] characters of [message]. *)
Definition chunks_of (n : nat) (message : str) : list str :=
  map (fun i => firstn n (skipn (n * i) message))
      (seq 0 ((length message + (n - 1)) / n)).

(** ** Connections *)

(** The attributes of a protocol object once [connection_made] has run
    on it with the transport [t]. *)
Definition opened (t : Transport) (c : IRCProtocol) : IRCProtocol :=
  {| transport := t; wrapper := None; last_ping := None; last_pong := 0%Q;
     buf := []; old_nickname := None; nickname := []; server_supports := [];
     queue := []; queue_timer := (3 # 2)%Q; caps := [];
     server_info := server_info c |}.

Definition connected (p : ref) : Signal :=
  {| name := "connected"; from := FromProtocol p; text := None |}.

(** ** Interleavings of enqueueing and draining *)

(** What happens to the outbound queue: a call of [writeln], or a firing
    of the drain timer. *)
Inductive action :=
| Enqueue (l : line)
| Fire.

Definition act (self : ref) (a : action) : M Local unit :=
  match a with
  | Enqueue l => writeln l
  | Fire => process_queue self
  end.

(** The lines handed to [writeln] in a run, in order. *)
Fixpoint lines_of (acts : list action) : list line :=
  match acts with
  | [] => []
  | Enqueue l :: r => l :: lines_of r
  | Fire :: r => lines_of r
  end.

(** The number of firings in a run. *)
Fixpoint fires (acts : list action) : nat :=
  match acts with
  | [] => O
  | Enqueue _ :: r => fires r
  | Fire :: r => S (fires r)
  end.

(** What the socket receives for a line that the low-level write
    accepts: its octets and the terminator. *)
Definition wire (l : line) : bytes :=
  match encoded l with
  | Some b => b ++ CRLF
  | None => []
  end.

(** The octets of a text that can be encoded. *)
Definition utf8 (s : str) : bytes :=
  match utf8_encode s with
  | Some b => b
  | None => []
  end.

(** ** What listeners and the server are given *)

(** A text without terminator and without whitespace at either end. *)
Definition trimmed (x : str) : Prop :=
  no_LF x
  /\ (forall c r, x = c :: r -> isspace c = false)
  /\ (forall c, last x = Some c -> isspace c = false).

(** The octets of the lines of the protocol operations. *)
Definition privmsg_octets (target chunk : str) : bytes :=
  blit "PRIVMSG " ++ utf8 target ++ blit " :" ++ utf8 chunk.

Definition pass_octets (password : str) : bytes :=
  blit "PASS " ++ utf8 password.

Definition user_octets (user mode realname : str) : bytes :=
  blit "USER " ++ utf8 user ++ blit " " ++ utf8 mode ++ blit " " ++ utf8 user
  ++ blit " :" ++ utf8 realname.

Definition nick_octets (nick : str) : bytes := blit "NICK " ++ utf8 nick.

(** ** Signals and timers of the connection life cycle *)

Definition connection_lost_signal (w : option wref) : Signal :=
  {| name := "connection-lost"; from := FromWrapper w; text := None |}.

(** The drain timer [connection_made] starts for the object [p]. *)
Definition timer (p : ref) : TimerHandle :=
  {| delay := (3 # 2)%Q; callback := p |}.

(** ** Worlds *)

Definition empty_world : World :=
  {| heap := []; wrappers := []; bus := []; loop := [] |}.

Definition example_info : ServerInfo :=
  {| host := lit "irc.example.net"; port := 6697; ssl := true |}.

(** The world after one [connect], and the connection in it. *)
Definition example_world : World :=
  snd (connect (lit "irc.example.net") 6697 true empty_world).

Definition example_connection : IRCProtocol :=
  set_server_info (Some example_info)
    (set_wrapper (Some O)
       (opened {| peer := example_info; sent := [] |} blank)).

(** The world after one further [reconnect] through the wrapper. *)
Definition example_world_reconnected : World :=
  snd (reconnect ascii_upper (Some O) example_world).

(** ** Calls through a wrapper *)

(** [w.method(...)] for a method of [IRCProtocol]: the wrapper has no
    such attribute of its own, [IRCProtocolWrapper.__getattr__] hands
    back the bound method of [w.protocol], and the call runs on that
    object. *)
Definition via_wrapper {A} (w : wref) (method : ref -> M Local A)
  : M World A :=
  p <- wrapper_protocol w ;; at_ p (method p).

(* ================================================================== *)
(** * Running the monad *)
(* ================================================================== *)

Lemma bind_returned {S A B} (m : M S A) (k : A -> M S B) s a s' :
  m s = (Returned a, s') -> bind m k s = k a s'.
Proof. intros H. unfold bind. now rewrite H. Qed.

Lemma bind_ret {S A B} (a : A) (k : A -> M S B) s : bind (ret a) k s = k a s.
Proof. reflexivity. Qed.

(* ================================================================== *)
(** * The UTF-8 codec *)
(* ================================================================== *)

(** Linear arithmetic with division and remainder by constants. *)
Ltac lia_div := zify; Z.to_euclidean_division_equations; lia.

(** Settle the comparisons of a goal by linear arithmetic. *)
Ltac decide_N :=
  unfold is_cont, between;
  repeat (match goal with
  | |- context [N.eqb ?a ?b] => destruct (N.eqb_spec a b); try lia
  | |- context [N.ltb ?a ?b] => destruct (N.ltb_spec a b); try lia
  | |- context [N.leb ?a ?b] => destruct (N.leb_spec a b); try lia
  end; cbn [andb orb negb]).

Lemma octet_to_N n : (n < 256)%N -> Byte.to_N (octet n) = n.
Proof.
  intros H. unfold octet. destruct (Byte.of_N n) as [b|] eqn:E.
  - now apply Byte.to_of_N.
  - apply Byte.of_N_None_iff in E. lia.
Qed.

(** Decoding reads back what encoding one code point wrote. *)
Lemma utf8_decode_encode_cp c b rest :
  utf8_encode_cp c = Some b ->
  utf8_decode (b ++ rest) = option_map (cons c) (utf8_decode rest).
Proof.
  unfold utf8_encode_cp.
  destruct (N.ltb_spec c 0x80) as [H1|H1].
  { intros [= <-]. cbn [app utf8_decode]. rewrite octet_to_N by lia.
    decide_N; reflexivity. }
  destruct (N.ltb_spec c 0x800) as [H2|H2].
  { intros [= <-].
    set (o1 := (0xC0 + c / 64)%N). set (o2 := (0x80 + c mod 64)%N).
    assert (B1 : (0xC2 <= o1 <= 0xDF)%N) by (unfold o1; lia_div).
    assert (B2 : (0x80 <= o2 <= 0xBF)%N) by (unfold o2; lia_div).
    assert (E : ((o1 - 0xC0) * 64 + (o2 - 0x80) = c)%N)
      by (unfold o1, o2; lia_div).
    clearbody o1 o2. cbn [app utf8_decode].
    rewrite !octet_to_N by lia. rewrite E.
    decide_N; reflexivity. }
  destruct (N.ltb_spec c 0x10000) as [H3|H3].
  { destruct (between 0xD800 0xDFFF c) eqn:Hs; [discriminate|].
    assert (Hs' : (c < 0xD800 \/ 0xDFFF < c)%N).
    { revert Hs. unfold between.
      destruct (N.leb_spec 0xD800 c); [|lia].
      destruct (N.leb_spec c 0xDFFF); [discriminate|lia]. }
    clear Hs. intros [= <-].
    set (o1 := (0xE0 + c / 4096)%N). set (o2 := (0x80 + (c / 64) mod 64)%N).
    set (o3 := (0x80 + c mod 64)%N).
    assert (B1 : (0xE0 <= o1 <= 0xEF)%N) by (unfold o1; lia_div).
    assert (B2 : (0x80 <= o2 <= 0xBF)%N) by (unfold o2; lia_div).
    assert (B3 : (0x80 <= o3 <= 0xBF)%N) by (unfold o3; lia_div).
    assert (L : (o1 = 0xE0 -> 0xA0 <= o2)%N) by (unfold o1, o2; lia_div).
    assert (U : (o1 = 0xED -> o2 <= 0x9F)%N) by (unfold o1, o2; lia_div).
    assert (E : ((o1 - 0xE0) * 4096 + (o2 - 0x80) * 64 + (o3 - 0x80) = c)%N)
      by (unfold o1, o2, o3; lia_div).
    clearbody o1 o2 o3. cbn [app utf8_decode].
    rewrite !octet_to_N by lia. rewrite E.
    decide_N; reflexivity. }
  destruct (N.ltb_spec c 0x110000) as [H4|H4]; [|discriminate].
  intros [= <-].
  set (o1 := (0xF0 + c / 262144)%N). set (o2 := (0x80 + (c / 4096) mod 64)%N).
  set (o3 := (0x80 + (c / 64) mod 64)%N). set (o4 := (0x80 + c mod 64)%N).
  assert (B1 : (0xF0 <= o1 <= 0xF4)%N) by (unfold o1; lia_div).
  assert (B2 : (0x80 <= o2 <= 0xBF)%N) by (unfold o2; lia_div).
  assert (B3 : (0x80 <= o3 <= 0xBF)%N) by (unfold o3; lia_div).
  assert (B4 : (0x80 <= o4 <= 0xBF)%N) by (unfold o4; lia_div).
  assert (L : (o1 = 0xF0 -> 0x90 <= o2)%N) by (unfold o1, o2; lia_div).
  assert (U : (o1 = 0xF4 -> o2 <= 0x8F)%N) by (unfold o1, o2; lia_div).
  assert (E : ((o1 - 0xF0) * 262144 + (o2 - 0x80) * 4096
               + (o3 - 0x80) * 64 + (o4 - 0x80) = c)%N)
    by (unfold o1, o2, o3, o4; lia_div).
  clearbody o1 o2 o3 o4. cbn [app utf8_decode].
  rewrite !octet_to_N by lia. rewrite E.
  decide_N; reflexivity.
Qed.

(** Text that can be encoded decodes to itself. *)
Lemma utf8_roundtrip s : forall b,
  utf8_encode s = Some b -> utf8_decode b = Some s.
Proof.
  induction s as [|c s IH]; intros b.
  - intros [= <-]. reflexivity.
  - cbn [utf8_encode].
    destruct (utf8_encode_cp c) as [bc|] eqn:Ec; [|discriminate].
    destruct (utf8_encode s) as [bs|] eqn:Es; [|discriminate].
    intros [= <-].
    rewrite (utf8_decode_encode_cp c bc bs Ec), (IH bs eq_refl). reflexivity.
Qed.

(** Decoding is compositional on pieces that decode on their own. *)
Lemma utf8_decode_app_bounded n : forall a b x y,
  (length a <= n)%nat ->
  utf8_decode a = Some x -> utf8_decode b = Some y ->
  utf8_decode (a ++ b) = Some (x ++ y).
Proof.
  induction n as [|n IH]; intros a b x y Hn Ha Hb.
  - destruct a; [|cbn in Hn; lia]. injection Ha as <-. exact Hb.
  - destruct a as [|b0 r0]; [injection Ha as <-; exact Hb|].
    cbn [length] in Hn. revert Ha. cbn [app utf8_decode].
    destruct (Byte.to_N b0 <? 128)%N.
    { destruct (utf8_decode r0) as [x0|] eqn:E0; [|discriminate].
      intros [= <-]. rewrite (IH r0 b x0 y) by (lia || assumption).
      reflexivity. }
    destruct (between 194 223 (Byte.to_N b0)).
    { destruct r0 as [|b1 r1]; [discriminate|]. cbn [length] in Hn.
      cbn [app]. destruct (is_cont (Byte.to_N b1)); [|discriminate].
      destruct (utf8_decode r1) as [x0|] eqn:E0; [|discriminate].
      intros [= <-]. rewrite (IH r1 b x0 y) by (lia || assumption).
      reflexivity. }
    destruct (between 224 239 (Byte.to_N b0)).
    { destruct r0 as [|b1 [|b2 r2]]; [discriminate|discriminate|].
      cbn [length] in Hn. cbn [app].
      match goal with |- context [if ?c then _ else None] => destruct c end;
        [|discriminate].
      destruct (utf8_decode r2) as [x0|] eqn:E0; [|discriminate].
      intros [= <-]. rewrite (IH r2 b x0 y) by (lia || assumption).
      reflexivity. }
    destruct (between 240 244 (Byte.to_N b0)); [|discriminate].
    destruct r0 as [|b1 [|b2 [|b3 r3]]];
      [discriminate|discriminate|discriminate|].
    cbn [length] in Hn. cbn [app].
    match goal with |- context [if ?c then _ else None] => destruct c end;
      [|discriminate].
    destruct (utf8_decode r3) as [x0|] eqn:E0; [|discriminate].
    intros [= <-]. rewrite (IH r3 b x0 y) by (lia || assumption).
    reflexivity.
Qed.

Lemma utf8_decode_app a b x y :
  utf8_decode a = Some x -> utf8_decode b = Some y ->
  utf8_decode (a ++ b) = Some (x ++ y).
Proof. apply (utf8_decode_app_bounded (length a)). lia. Qed.

Lemma decode_chunks chunks :
  Forall (fun c => utf8_decode c <> None) chunks ->
  exists texts,
    Forall2 (fun c t => utf8_decode c = Some t) chunks texts
    /\ utf8_decode (List.concat chunks) = Some (List.concat texts).
Proof.
  induction 1 as [|c chunks Hc _ (texts & H2 & E)].
  - exists []. split; [constructor|reflexivity].
  - destruct (utf8_decode c) as [t|] eqn:Ec; [|congruence].
    exists (t :: texts). split; [now constructor|].
    cbn [List.concat]. now apply utf8_decode_app.
Qed.

(* ================================================================== *)
(** * Framing of the inbound byte stream *)
(* ================================================================== *)

Section Framing.

Variable self : ref.

Lemma contains_In c s : contains c s = true <-> In c s.
Proof.
  unfold contains. rewrite existsb_exists. split.
  - intros (x & Hx & E). apply N.eqb_eq in E. now subst.
  - intros H. exists c. split; [exact H|apply N.eqb_refl].
Qed.

Lemma contains_no_LF s : no_LF s -> contains LF s = false.
Proof.
  intros H. destruct (contains LF s) eqn:E; [|reflexivity].
  apply contains_In in E. contradiction.
Qed.

Lemma index_first c l rest :
  ~ In c l -> index c (l ++ c :: rest) = Some (length l).
Proof.
  induction l as [|x l IH]; intros H; cbn [app index length].
  - now rewrite N.eqb_refl.
  - destruct (N.eqb_spec c x) as [->|_].
    + exfalso. apply H. now left.
    + rewrite IH; [reflexivity|]. intros Hin. apply H. now right.
Qed.

Lemma index_none c s : ~ In c s -> index c s = None.
Proof.
  induction s as [|x s IH]; intros H; cbn [index]; [reflexivity|].
  destruct (N.eqb_spec c x) as [->|_].
  - exfalso. apply H. now left.
  - rewrite IH; [reflexivity|]. intros Hin. apply H. now right.
Qed.

Lemma firstn_prefix {A} (l r : list A) : firstn (length l) (l ++ r) = l.
Proof. now rewrite firstn_app, Nat.sub_diag, firstn_all, app_nil_r. Qed.

Lemma skipn_prefix {A} (l : list A) x r :
  skipn (S (length l)) (l ++ x :: r) = r.
Proof. induction l as [|y l IH]; [reflexivity|exact IH]. Qed.

Lemma frame_cons l lines rem :
  frame (l :: lines) rem = l ++ LF :: frame lines rem.
Proof. unfold frame. cbn [map List.concat]. now rewrite <- !app_assoc. Qed.

Lemma frame_nil rem : frame [] rem = rem.
Proof. reflexivity. Qed.

Lemma frame_length lines rem : (length lines <= length (frame lines rem))%nat.
Proof.
  induction lines as [|l lines IH]; [cbn; lia|].
  rewrite frame_cons, length_app. cbn [length]. lia.
Qed.

(** Every text splits into terminated lines and a remainder. *)
Lemma frame_exists (t : str) :
  exists lines rem, t = frame lines rem /\ Forall no_LF lines /\ no_LF rem.
Proof.
  induction t as [|c t (lines & rem & -> & Hl & Hr)].
  - exists [], []. repeat split; [constructor|intros []].
  - destruct (N.eqb_spec c LF) as [->|Hc].
    + exists ([] :: lines), rem. rewrite frame_cons. repeat split.
      * constructor; [intros []|assumption].
      * assumption.
    + destruct lines as [|l lines].
      * exists [], (c :: rem). rewrite !frame_nil.
        repeat split; [constructor|].
        intros [E|H]; [now apply Hc|now apply Hr].
      * exists ((c :: l) :: lines), rem. rewrite !frame_cons.
        inversion Hl; subst. repeat split.
        -- constructor; [|assumption].
           intros [E|H]; [now apply Hc|contradiction].
        -- assumption.
Qed.

Lemma first_LF_unique a b u v :
  no_LF a -> no_LF b -> a ++ LF :: u = b ++ LF :: v -> a = b /\ u = v.
Proof.
  revert b. induction a as [|x a IH]; intros [|y b] Ha Hb E; cbn [app] in E.
  - injection E as E. auto.
  - injection E as E1 E2. exfalso. apply Hb. now left.
  - injection E as E1 E2. exfalso. apply Ha. now left.
  - injection E as E1 E2. subst y. destruct (IH b) as [-> ->]; auto.
    + intros H. apply Ha. now right.
    + intros H. apply Hb. now right.
Qed.

(** The lines of a text that starts with [frame l1 r1] start with [l1]. *)
Lemma frame_app_inv l1 : forall r1 x lines rem,
  Forall no_LF l1 -> Forall no_LF lines -> no_LF rem ->
  frame l1 r1 ++ x = frame lines rem ->
  exists l2, lines = l1 ++ l2 /\ r1 ++ x = frame l2 rem.
Proof.
  induction l1 as [|a l1 IH]; intros r1 x lines rem H1 Hl Hr E.
  - exists lines. now rewrite frame_nil in E.
  - rewrite frame_cons in E. cbn [app] in E. rewrite <- app_assoc in E.
    cbn [app] in E. inversion H1; subst.
    destruct lines as [|b lines].
    + rewrite frame_nil in E. exfalso. apply Hr. rewrite <- E.
      apply in_or_app. right. now left.
    + rewrite frame_cons in E. inversion Hl; subst.
      destruct (first_LF_unique a b _ _ ltac:(assumption) ltac:(assumption) E)
        as [-> E'].
      destruct (IH r1 x lines rem) as (l2 & -> & E2); try assumption.
      exists l2. split; [reflexivity|exact E2].
Qed.

Lemma framed_framed a b r1 r2 s :
  framed self b r2 (framed self a r1 s) = framed self (a ++ b) r2 s.
Proof.
  destruct s as [c sg tm]. unfold framed. cbn [this signals timers].
  rewrite map_app, <- app_assoc. now destruct c.
Qed.

(** One turn of the loop takes the first line off the buffer. *)
Lemma extract_line_frame l rest s :
  no_LF l -> buf (this s) = l ++ LF :: rest ->
  extract_line self s = (Returned tt, framed self [strip l] rest s).
Proof.
  intros Hl Hb. unfold extract_line.
  cbv beta iota delta [bind self_ get ret]. rewrite Hb.
  rewrite (index_first LF l rest Hl).
  cbv beta iota delta [or_raise ret bind on_this modify send].
  rewrite Nat.add_1_r, firstn_prefix, skipn_prefix.
  destruct s as [c sg tm]. now destruct c.
Qed.

(** The loop ends, with every terminated line emitted in order. *)
Lemma framing_loop rem : forall lines fuel s,
  Forall no_LF lines -> no_LF rem ->
  buf (this s) = frame lines rem ->
  (length lines <= fuel)%nat ->
  while_ fuel (fun s => contains LF (buf (this s))) (extract_line self) s
  = (Returned tt, framed self (map strip lines) rem s).
Proof.
  induction lines as [|l lines IH]; intros fuel s Hl Hr Hb Hf.
  - rewrite frame_nil in Hb.
    assert (E : contains LF (buf (this s)) = false)
      by (rewrite Hb; now apply contains_no_LF).
    destruct fuel; cbn [while_]; rewrite E.
    all: unfold framed; cbn [map]; rewrite app_nil_r, <- Hb.
    all: destruct s as [c sg tm]; now destruct c.
  - rewrite frame_cons in Hb. inversion Hl as [|? ? Hl1 Hl2]; subst.
    assert (E : contains LF (buf (this s)) = true).
    { rewrite Hb. apply contains_In, in_or_app. right. now left. }
    destruct fuel as [|fuel]; [cbn [length] in Hf; lia|].
    cbn [while_]. rewrite E.
    rewrite (bind_returned _ _ _ _ _ (extract_line_frame l _ s Hl1 Hb)).
    rewrite IH; [|assumption|assumption|reflexivity|cbn [length] in Hf; lia].
    now rewrite framed_framed.
Qed.

Lemma data_received_frames data t lines rem s :
  utf8_decode data = Some t ->
  Forall no_LF lines -> no_LF rem ->
  buf (this s) ++ t = frame lines rem ->
  data_received self data s
  = (Returned tt, framed self (map strip lines) rem s).
Proof.
  intros Hd Hl Hr Hb. unfold data_received. rewrite Hd.
  cbv beta iota delta [or_raise ret bind on_this modify self_ get].
  cbn [this].
  rewrite (framing_loop rem lines).
  - unfold framed. cbn [this signals timers].
    destruct s as [c sg tm]. now destruct c.
  - assumption.
  - assumption.
  - cbn [this]. rewrite <- Hb. now destruct (this s).
  - replace (buf (set_buf (buf (this s) ++ t) (this s)))
      with (frame lines rem) by (rewrite <- Hb; now destruct (this s)).
    apply frame_length.
Qed.

(** The handler returns on every chunk that decodes, whatever is in the
    buffer. *)
Lemma data_received_returns data t s :
  utf8_decode data = Some t ->
  exists s', data_received self data s = (Returned tt, s').
Proof.
  intros Hd.
  destruct (frame_exists (buf (this s) ++ t)) as (lines & rem & E & Hl & Hr).
  eexists. apply (data_received_frames data t lines rem s Hd Hl Hr E).
Qed.

Lemma feed_frames : forall chunks texts lines rem s,
  Forall2 (fun c t => utf8_decode c = Some t) chunks texts ->
  no_LF (buf (this s)) ->
  Forall no_LF lines -> no_LF rem ->
  buf (this s) ++ List.concat texts = frame lines rem ->
  feed self chunks s = (Returned tt, framed self (map strip lines) rem s).
Proof.
  induction chunks as [|c chunks IH]; intros texts lines rem s Hd Hb Hl Hr E.
  - inversion Hd; subst. cbn [List.concat] in E. rewrite app_nil_r in E.
    destruct lines as [|l lines].
    + rewrite frame_nil in E. unfold feed; cbn [for_ map]. unfold ret, framed.
      rewrite app_nil_r, <- E. destruct s as [c sg tm]. now destruct c.
    + exfalso. apply Hb. rewrite E, frame_cons.
      apply in_or_app. right. now left.
  - inversion Hd as [|? t ? texts' Hc Hd']; subst.
    destruct (frame_exists (buf (this s) ++ t)) as (l1 & r1 & E1 & Hl1 & Hr1).
    cbn [List.concat] in E. rewrite app_assoc, E1 in E.
    destruct (frame_app_inv l1 r1 _ lines rem Hl1 Hl Hr E) as (l2 & -> & E2).
    unfold feed. cbn [for_].
    rewrite (bind_returned _ _ _ _ _
               (data_received_frames c t l1 r1 s Hc Hl1 Hr1 E1)).
    apply Forall_app in Hl as [_ Hl2].
    fold (feed self chunks).
    rewrite (IH texts' l2 rem (framed self (map strip l1) r1 s));
      try assumption.
    rewrite framed_framed, map_app. reflexivity.
Qed.

End Framing.

(** C1 (as the code has it). Let the chunks be fed to [data_received] of
    a connection whose buffer is empty, each chunk being valid UTF-8 on
    its own, and let their concatenation decode to [k] lines, each ended
    by the terminator, followed by a remainder without terminator. Then,
    however the bytes are split into chunks, the handler returns, exactly
    [k] [raw] signals are emitted, in order, with the connection as
    sender and carrying the lines with the terminator removed and the
    whitespace at BOTH ends stripped, and exactly the remainder stays in
    the buffer. *)
Theorem framing_is_split_independent :
  forall (self : ref) (chunks : list bytes) (lines : list str) (rem : str)
         (s : Local),
    buf (this s) = [] ->
    Forall (fun c => utf8_decode c <> None) chunks ->
    utf8_decode (List.concat chunks) = Some (frame lines rem) ->
    Forall no_LF lines -> no_LF rem ->
    feed self chunks s = (Returned tt, framed self (map strip lines) rem s).
Proof.
  intros self chunks lines rem s Hb Hc Hd Hl Hr.
  destruct (decode_chunks chunks Hc) as (texts & H2 & E).
  rewrite E in Hd. injection Hd as Hd.
  apply (feed_frames self chunks texts); try assumption.
  - rewrite Hb. intros [].
  - now rewrite Hb.
Qed.

(** Two lines and a partial third one, split in the middle of a line and
    between a carriage return and its line feed. *)
Lemma framing_is_split_independent_witness :
  feed 0 [blit "PING :a"; [x0d; x0a] ++ blit "  NOTICE"; blit " x" ++ [x0a]
          ++ blit "PAR"] fresh
  = (Returned tt, framed 0 [lit "PING :a"; lit "NOTICE x"] (lit "PAR") fresh).
Proof.
  apply (framing_is_split_independent 0
           [blit "PING :a"; [x0d; x0a] ++ blit "  NOTICE";
            blit " x" ++ [x0a] ++ blit "PAR"]
           [lit "PING :a" ++ [13%N]; lit "  NOTICE x"] (lit "PAR") fresh).
  - reflexivity.
  - repeat constructor; intros H; vm_compute in H; discriminate H.
  - reflexivity.
  - repeat constructor; intros H; vm_compute in H; intuition discriminate.
  - intros H; vm_compute in H; intuition discriminate.
Defined.

(** C1 (as stated) fails twice. A line with leading whitespace is
    emitted without it, whereas the claim keeps it (only trailing
    whitespace trimmed); and a split inside a multi-byte character makes
    the handler raise, whatever the concatenation decodes to. *)
Lemma framing_counterexamples :
  (let chunks := [[x20; x61; x0a]] in
   let lines := [[32%N; 97%N]] in
   utf8_decode (List.concat chunks) = Some (frame lines [])
   /\ feed 0 chunks fresh = (Returned tt, framed 0 [[97%N]] [] fresh)
   /\ feed 0 chunks fresh
      <> (Returned tt, framed 0 (map rstrip lines) [] fresh))
  /\ (let chunks := [[xc3]; [xa9; x0a]] in
      utf8_decode (List.concat chunks) = Some (frame [[233%N]] [])
      /\ feed 0 chunks fresh = (Raised UnicodeDecodeError, fresh)).
Proof.
  split; [split; [reflexivity|split; [reflexivity|discriminate]]|].
  split; reflexivity.
Qed.

(* ================================================================== *)
(** * The outbound queue and its drain timer *)
(* ================================================================== *)

Lemma writeln_raw_bytes b t s :
  utf8_decode b = Some t ->
  _writeln (Bytes b) s = (Returned tt, written b t s).
Proof.
  intros H. unfold _writeln.
  cbv beta iota delta [bind ret socket_send on_this modify or_raise].
  rewrite H. reflexivity.
Qed.

Lemma writeln_raw_str t b s :
  utf8_encode t = Some b ->
  _writeln (Str t) s = (Returned tt, written b t s).
Proof.
  intros H. unfold _writeln.
  cbv beta iota delta [bind ret socket_send on_this modify or_raise].
  rewrite H. cbv beta iota delta [bind ret socket_send on_this modify or_raise].
  rewrite (utf8_roundtrip _ _ H). reflexivity.
Qed.

Lemma writeln_raw_encoded l b s :
  encoded l = Some b ->
  exists t, _writeln l s = (Returned tt, written b t s).
Proof.
  destruct l as [t|b']; cbn [encoded].
  - intros H. exists t. now apply writeln_raw_str.
  - destruct (utf8_decode b') as [t|] eqn:E; [|discriminate].
    intros [= <-]. exists t. now apply writeln_raw_bytes.
Qed.

(** C8 (as the code has it). For a text line that can be encoded as
    UTF-8, and for a line of octets that can be decoded as UTF-8, the
    low-level write hands the octets of the line followed by the
    terminator CR LF to the socket and emits one [irc-send] signal; the
    sent line, as text, is the SENDER of that signal, which has no [text]
    keyword. *)
Theorem writeln_raw_sends_and_signals :
  (forall (t : str) (b : bytes) (s : Local),
     utf8_encode t = Some b ->
     _writeln (Str t) s = (Returned tt, written b t s))
  /\ (forall (b : bytes) (t : str) (s : Local),
        utf8_decode b = Some t ->
        _writeln (Bytes b) s = (Returned tt, written b t s)).
Proof.
  split.
  - intros; now apply writeln_raw_str.
  - intros; now apply writeln_raw_bytes.
Qed.

Lemma writeln_raw_sends_and_signals_witness :
  _writeln (Str (lit "PING")) fresh
  = (Returned tt, written (blit "PING") (lit "PING") fresh).
Proof.
  apply (proj1 writeln_raw_sends_and_signals (lit "PING") (blit "PING") fresh).
  reflexivity.
Defined.

(** C8 (as stated) fails: a line of octets that is not valid UTF-8 goes
    to the socket, after which decoding it raises and no [irc-send]
    signal is emitted; and the signal of a line that is sent carries the
    line as its sender, its [text] being absent. *)
Lemma writeln_raw_undecodable_bytes :
  _writeln (Bytes [xff]) fresh
  = (Raised UnicodeDecodeError,
     {| this := set_transport
                  {| peer := peer (transport blank);
                     sent := [[xff; x0d; x0a]] |} blank;
        signals := []; timers := [] |})
  /\ signals (snd (_writeln (Str (lit "PING")) fresh))
     = [{| name := "irc-send"; from := FromText (lit "PING");
           text := None |}].
Proof. split; reflexivity. Qed.

Section Drain.

Variable self : ref.

Lemma process_queue_sends l rest b s :
  queue (this s) = l :: rest ->
  encoded l = Some b ->
  exists s',
    process_queue self s = (Returned tt, s')
    /\ queue (this s') = rest
    /\ sent (transport (this s')) = sent (transport (this s)) ++ [b ++ CRLF]
    /\ timers s' = timers s ++ [tick self s]
    /\ queue_timer (this s') = queue_timer (this s).
Proof.
  intros Hq He. unfold process_queue.
  cbv beta iota delta [bind self_ get ret]. rewrite Hq.
  cbv beta iota delta [bind on_this modify].
  destruct (writeln_raw_encoded l b
              {| this := set_queue rest (this s); signals := signals s;
                 timers := timers s |} He) as [t Ht].
  rewrite Ht. cbv beta iota delta [bind self_ get ret call_later modify].
  eexists. split; [reflexivity|]. destruct s as [c sg tm]. now destruct c.
Qed.

Lemma process_queue_idle s :
  queue (this s) = [] ->
  process_queue self s
  = (Returned tt,
     {| this := this s; signals := signals s;
        timers := timers s ++ [tick self s] |}).
Proof.
  intros Hq. unfold process_queue.
  cbv beta iota delta [bind self_ get ret]. rewrite Hq.
  reflexivity.
Qed.

Lemma for_writeln lines s :
  for_ lines writeln s = (Returned tt, enqueued lines s).
Proof.
  revert s. induction lines as [|l lines IH]; intros [c sg tm].
  - unfold enqueued. cbn [for_ ret this signals timers]. rewrite app_nil_r.
    now destruct c.
  - cbn [for_]. unfold bind, writeln at 1, on_this, modify. rewrite IH.
    unfold enqueued. cbn [this signals timers].
    destruct c; unfold set_queue; cbn.
    now rewrite <- app_assoc.
Qed.

Lemma firings_drain : forall k lines wire s,
  queue (this s) = lines ->
  Forall2 (fun l b => encoded l = Some b) lines wire ->
  exists sk,
    firings self k s = (Returned tt, sk)
    /\ sent (transport (this sk))
       = sent (transport (this s)) ++ map (fun b => b ++ CRLF) (firstn k wire)
    /\ queue (this sk) = skipn k lines
    /\ timers sk = timers s ++ repeat (tick self s) k.
Proof.
  induction k as [|k IH]; intros lines wire s Hq Hw.
  - exists s. cbn [firings firstn skipn map repeat]. rewrite !app_nil_r. auto.
  - cbn [firings]. destruct Hw as [|l b lines wire Hl Hw].
    + rewrite (bind_returned _ _ _ _ _ (process_queue_idle s Hq)).
      edestruct (IH [] [] {| this := this s; signals := signals s;
                             timers := timers s ++ [tick self s] |})
        as (sk & Hk & Hs & Hq' & Ht); [exact Hq|constructor|].
      cbn [this timers] in Hs, Ht.
      exists sk. split; [exact Hk|]. split; [|split].
      * rewrite Hs, !firstn_nil. reflexivity.
      * rewrite Hq', !skipn_nil. reflexivity.
      * rewrite Ht. cbn [repeat]. rewrite <- app_assoc. reflexivity.
    + destruct (process_queue_sends l lines b s Hq Hl)
        as (s' & Hp & Hq' & Hs' & Ht' & Hd').
      rewrite (bind_returned _ _ _ _ _ Hp).
      destruct (IH lines wire s' Hq' Hw) as (sk & Hk & Hs & Hq'' & Ht).
      exists sk. split; [exact Hk|]. split; [|split].
      * rewrite Hs, Hs'. cbn [firstn map]. rewrite <- app_assoc. reflexivity.
      * exact Hq''.
      * rewrite Ht, Ht'. cbn [repeat]. rewrite <- app_assoc.
        unfold tick. rewrite Hd'. reflexivity.
Qed.

End Drain.

(** C3 (as the code has it). Let [writeln] be called with [L1..Ln] on a
    connection whose queue is empty, before any firing of the drain
    timer, every line being one the low-level write accepts (text that
    can be encoded as UTF-8, or octets that can be decoded as UTF-8).
    The calls only append to the queue: transport, signals and timers are
    as before. After [k] firings the socket has received the first [k]
    lines, in order, each followed by CR LF, and nothing else; the queue
    holds the lines from the [k+1]-th on; and each firing, whether or not
    it had a line to send, has scheduled one further firing after the
    period [queue_timer] of the connection. *)
Theorem outbound_queue_is_fifo :
  forall (self : ref) (lines : list line) (wire : list bytes) (s : Local),
    queue (this s) = [] ->
    Forall2 (fun l b => encoded l = Some b) lines wire ->
    exists s1,
      for_ lines writeln s = (Returned tt, s1)
      /\ queue (this s1) = lines
      /\ transport (this s1) = transport (this s)
      /\ signals s1 = signals s
      /\ timers s1 = timers s
      /\ forall k : nat,
           exists sk,
             firings self k s1 = (Returned tt, sk)
             /\ sent (transport (this sk))
                = sent (transport (this s))
                  ++ map (fun b => b ++ CRLF) (firstn k wire)
             /\ queue (this sk) = skipn k lines
             /\ timers sk = timers s ++ repeat (tick self s) k.
Proof.
  intros self lines wire s Hq Hw.
  eexists. split; [apply for_writeln|].
  unfold enqueued. rewrite Hq. cbn [app this signals timers].
  split; [now destruct (this s)|]. split; [now destruct (this s)|].
  split; [reflexivity|]. split; [reflexivity|].
  intros k.
  destruct (firings_drain self k lines wire
              {| this := set_queue lines (this s); signals := signals s;
                 timers := timers s |}) as (sk & Hk & Hs & Hq' & Ht);
    [now destruct (this s)|exact Hw|].
  exists sk. split; [exact Hk|]. split; [|split].
  - rewrite Hs. now destruct (this s).
  - exact Hq'.
  - rewrite Ht. unfold tick. now destruct (this s).
Qed.

(** A text line and a line of octets, on a connection that has just been
    opened. *)
Lemma outbound_queue_is_fifo_witness :
  exists s1,
    for_ [Str (lit "NICK bot"); Bytes (blit "PING")] writeln fresh
    = (Returned tt, s1)
    /\ queue (this s1) = [Str (lit "NICK bot"); Bytes (blit "PING")]
    /\ transport (this s1) = transport (this fresh)
    /\ signals s1 = signals fresh
    /\ timers s1 = timers fresh
    /\ forall k : nat,
         exists sk,
           firings 0 k s1 = (Returned tt, sk)
           /\ sent (transport (this sk))
              = sent (transport (this fresh))
                ++ map (fun b => b ++ CRLF)
                       (firstn k [blit "NICK bot"; blit "PING"])
           /\ queue (this sk)
              = skipn k [Str (lit "NICK bot"); Bytes (blit "PING")]
           /\ timers sk = timers fresh ++ repeat (tick 0 fresh) k.
Proof.
  apply (outbound_queue_is_fifo 0
           [Str (lit "NICK bot"); Bytes (blit "PING")]
           [blit "NICK bot"; blit "PING"] fresh).
  - reflexivity.
  - repeat constructor.
Defined.

(** C3 (as stated) fails on a queue with a line of octets that is not
    valid UTF-8: the firing that takes it sends it and raises before it
    has scheduled the next firing, so the line behind it is never
    written. *)
Lemma drain_stalls_on_undecodable_line :
  let lines := [Bytes [xff]; Str (lit "PING")] in
  let s1 := snd (for_ lines writeln fresh) in
  queue (this s1) = lines
  /\ fst (process_queue 0 s1) = Raised UnicodeDecodeError
  /\ sent (transport (this (snd (process_queue 0 s1)))) = [[xff; x0d; x0a]]
  /\ queue (this (snd (process_queue 0 s1))) = [Str (lit "PING")]
  /\ timers (snd (process_queue 0 s1)) = [].
Proof. repeat split. Qed.

(* ================================================================== *)
(** * Protocol operations *)
(* ================================================================== *)

Lemma writeln_enqueued l s : writeln l s = (Returned tt, enqueued [l] s).
Proof. reflexivity. Qed.

Lemma enqueued_enqueued a b s : enqueued b (enqueued a s) = enqueued (a ++ b) s.
Proof.
  destruct s as [c sg tm]. unfold enqueued; simpl. f_equal.
  destruct c; unfold set_queue; simpl. now rewrite <- app_assoc.
Qed.

Lemma enqueued_nil s : enqueued [] s = s.
Proof.
  destruct s as [c sg tm]. unfold enqueued; simpl. f_equal.
  destruct c; unfold set_queue; simpl. now rewrite app_nil_r.
Qed.

(** C7 (as the code has it). [register] enqueues [PASS <password>] first
    when a password is given and is not empty, and no [PASS] line when
    the password is absent or empty; then [USER <user> <mode> <user>
    :<realname>], then [NICK <nick>]; it emits [registration-complete]
    with the connection as sender, and it sets the nickname of the
    connection to [nick] before it returns. *)
Theorem register_enqueues_and_names :
  forall (self : ref) (nick user realname mode : str)
         (password : option str) (s : Local),
    register self nick user realname mode password s =
    (Returned tt,
     registered self nick
       (match password with
        | Some (c :: p) => [pass_line (c :: p)]
        | _ => []
        end ++ [user_line user mode realname; nick_line nick]) s).
Proof.
  intros self nick user realname mode password [c sg tm].
  destruct c.
  destruct password as [[|x p]|]; unfold registered, set_nickname, set_queue;
    cbn; rewrite <- ?app_assoc; reflexivity.
Qed.

(** C7 (as stated) fails for a password that is given and empty: no
    [PASS] line is enqueued. *)
Lemma register_empty_password_sends_no_pass :
  let nick := lit "bot" in
  let user := lit "bot" in
  let realname := lit "A bot" in
  register 0 nick user realname default_mode (Some []) fresh
  = (Returned tt,
     registered 0 nick [user_line user default_mode realname; nick_line nick]
                fresh)
  /\ register 0 nick user realname default_mode (Some []) fresh
     <> (Returned tt,
         registered 0 nick
           [pass_line []; user_line user default_mode realname;
            nick_line nick] fresh).
Proof.
  split; [reflexivity|]. intros H. discriminate H.
Qed.

(** ** [say] *)

Lemma chunks_of_nil n : chunks_of n [] = [].
Proof.
  unfold chunks_of. cbn [length]. destruct n as [|n]; [reflexivity|].
  rewrite Nat.div_small by lia. reflexivity.
Qed.

Lemma chunks_of_cons n message :
  (0 < n)%nat -> message <> [] ->
  chunks_of n message = firstn n message :: chunks_of n (skipn n message).
Proof.
  intros Hn Hm. unfold chunks_of.
  assert (Hlen : (0 < length message)%nat).
  { destruct message; [congruence|simpl; lia]. }
  rewrite length_skipn.
  assert (E : ((length message + (n - 1)) / n
               = S ((length message - n + (n - 1)) / n))%nat).
  { destruct (Nat.le_gt_cases n (length message)) as [Hle|Hlt].
    - replace (length message + (n - 1))%nat
        with ((length message - n + (n - 1)) + 1 * n)%nat by lia.
      rewrite Nat.div_add by lia. lia.
    - replace (length message - n)%nat with 0%nat by lia.
      rewrite (Nat.div_small (0 + (n - 1)) n) by lia.
      replace (length message + (n - 1))%nat
        with ((length message - 1) + 1 * n)%nat by lia.
      rewrite Nat.div_add by lia. rewrite Nat.div_small by lia. reflexivity. }
  rewrite E. cbn [seq map]. rewrite Nat.mul_0_r. cbn [skipn]. f_equal.
  rewrite <- seq_shift, map_map. apply map_ext. intros i.
  rewrite skipn_skipn. do 2 f_equal. lia.
Qed.

(** The chunks put together are the message again, and none is empty or
    longer than [n]. *)
Lemma chunks_of_concat n : (0 < n)%nat -> forall k message,
  (length message <= k)%nat ->
  List.concat (chunks_of n message) = message
  /\ Forall (fun c => (1 <= length c <= n)%nat) (chunks_of n message).
Proof.
  intros Hn. induction k as [|k IH]; intros message Hk.
  - destruct message; [|cbn in Hk; lia]. rewrite chunks_of_nil.
    split; [reflexivity|constructor].
  - destruct message as [|c m]; [rewrite chunks_of_nil; split;
                                 [reflexivity|constructor]|].
    rewrite chunks_of_cons by (lia || congruence).
    destruct (IH (skipn n (c :: m))) as [E F].
    { rewrite length_skipn. cbn [length] in *. lia. }
    split.
    + cbn [List.concat]. rewrite E. apply firstn_skipn.
    + constructor; [|exact F]. rewrite length_firstn. cbn [length]. lia.
Qed.

Lemma say_loop_chunks fuel target message s :
  (length message <= fuel)%nat ->
  say_loop fuel target message s =
  (Returned tt, enqueued (map (privmsg target) (chunks_of 400 message)) s).
Proof.
  revert message s. induction fuel as [|fuel IH]; intros message s Hf.
  - destruct message; [|simpl in Hf; lia].
    cbn [say_loop]. rewrite chunks_of_nil. cbn [map]. now rewrite enqueued_nil.
  - destruct message as [|c m].
    + cbn [say_loop]. rewrite chunks_of_nil. cbn [map].
      now rewrite enqueued_nil.
    + cbn [say_loop]. unfold bind at 1. rewrite writeln_enqueued.
      rewrite IH.
      * rewrite enqueued_enqueued.
        rewrite (chunks_of_cons 400 (c :: m)) by (lia || congruence).
        reflexivity.
      * rewrite length_skipn. cbn [length] in *. lia.
Qed.

(** C5. [say target message] returns and enqueues, in order, one line
    [PRIVMSG <target> :<chunk>] for each of the successive substrings of
    at most 400 characters of [message], and nothing else; for a message
    of 950 characters these are three lines, each starting with
    [PRIVMSG #chan :] when the target is [#chan], whose payloads have
    400, 400 and 150 characters and make up the message. *)
Theorem say_chunks_message :
  (forall (target message : str) (s : Local),
     say target message s =
     (Returned tt, enqueued (map (privmsg target) (chunks_of 400 message)) s))
  /\ (forall (message : str) (s : Local),
        length message = 950%nat ->
        exists c1 c2 c3,
          say (lit "#chan") message s =
          (Returned tt,
           enqueued [Str (lit "PRIVMSG #chan :" ++ c1);
                     Str (lit "PRIVMSG #chan :" ++ c2);
                     Str (lit "PRIVMSG #chan :" ++ c3)] s)
          /\ message = c1 ++ c2 ++ c3
          /\ length c1 = 400%nat /\ length c2 = 400%nat
          /\ length c3 = 150%nat).
Proof.
  split.
  - intros. unfold say. now apply say_loop_chunks.
  - intros message s Hlen.
    exists (firstn 400 message), (firstn 400 (skipn 400 message)),
           (skipn 800 message).
    split; [|split; [|repeat split]].
    + unfold say. rewrite say_loop_chunks by lia.
      unfold chunks_of. rewrite Hlen.
      change ((950 + (400 - 1)) / 400)%nat with 3%nat.
      cbn [seq map]. unfold privmsg.
      change (400 * 0)%nat with 0%nat. change (400 * 1)%nat with 400%nat.
      change (400 * 2)%nat with 800%nat. cbn [skipn].
      rewrite (firstn_all2 (n := 400) (skipn 800 message))
        by (rewrite length_skipn; lia).
      reflexivity.
    + rewrite <- (firstn_skipn 400 message) at 1. f_equal.
      rewrite <- (firstn_skipn 400 (skipn 400 message)) at 1. f_equal.
      now rewrite skipn_skipn.
    + rewrite length_firstn. lia.
    + rewrite length_firstn, length_skipn. lia.
    + rewrite length_skipn. lia.
Qed.

(** A message of 950 characters. *)
Lemma say_chunks_message_witness :
  exists c1 c2 c3,
    say (lit "#chan") (repeat 97%N 950) fresh =
    (Returned tt,
     enqueued [Str (lit "PRIVMSG #chan :" ++ c1);
               Str (lit "PRIVMSG #chan :" ++ c2);
               Str (lit "PRIVMSG #chan :" ++ c3)] fresh)
    /\ repeat 97%N 950 = c1 ++ c2 ++ c3
    /\ length c1 = 400%nat /\ length c2 = 400%nat /\ length c3 = 150%nat.
Proof.
  apply (proj2 say_chunks_message (repeat 97%N 950) fresh).
  vm_compute. reflexivity.
Defined.

(** ** The catch-all *)

Section CatchAll.

Variable str_upper : str -> str.

Lemma send_command_line attr init a_n s :
  _send_command str_upper attr (init ++ [a_n]) s =
  (Returned tt,
   enqueued [Str (str_upper attr ++ lit " " ++ Py.join (lit " ") init
                  ++ lit " :" ++ a_n)] s).
Proof.
  unfold _send_command. rewrite last_snoc, removelast_last. reflexivity.
Qed.

Lemma getattr_fallback attr s :
  ~ In attr (instance_dict (this s)) ->
  __getattr__ str_upper attr s
  = (Returned (SendCommand (_send_command str_upper attr)), s).
Proof.
  intros H. unfold __getattr__. cbv beta iota delta [bind self_ get ret].
  destruct (in_dec str_eq_dec attr (instance_dict (this s)));
    [contradiction|reflexivity].
Qed.

Lemma call_fallback_sends attr init a_n s :
  ~ In attr (instance_dict (this s)) ->
  call_fallback str_upper attr (init ++ [a_n]) s =
  (Returned tt,
   enqueued [Str (str_upper attr ++ lit " " ++ Py.join (lit " ") init
                  ++ lit " :" ++ a_n)] s).
Proof.
  intros H. unfold call_fallback.
  rewrite (bind_returned _ _ _ _ _ (getattr_fallback attr s H)).
  apply send_command_line.
Qed.

(** With no argument at all there is no last argument to format. *)
Lemma call_fallback_no_argument attr s :
  ~ In attr (instance_dict (this s)) ->
  call_fallback str_upper attr [] s = (Raised IndexError, s).
Proof.
  intros H. unfold call_fallback.
  rewrite (bind_returned _ _ _ _ _ (getattr_fallback attr s H)).
  reflexivity.
Qed.

End CatchAll.

Lemma mode_not_instance_attr c : ~ In (lit "mode") (instance_dict c).
Proof.
  unfold instance_dict. destruct (server_info c); simpl; intros H;
  repeat (destruct H as [H|H]; [discriminate H|]); exact H.
Qed.

Lemma nick_not_instance_attr c : ~ In (lit "nick") (instance_dict c).
Proof.
  unfold instance_dict. destruct (server_info c); simpl; intros H;
  repeat (destruct H as [H|H]; [discriminate H|]); exact H.
Qed.

(** C4. A call [conn.attr(a1, ..., an)] with [n >= 2] that reaches the
    catch-all ([attr] is no instance attribute) returns and enqueues
    exactly one line: the upper-cased command name, a space, [a1] to
    [a(n-1)] joined by spaces, then [ :] and [an]. In particular
    [mode("#chan", "+o", "alice")] enqueues exactly
    [MODE #chan +o :alice]. *)
Theorem fallback_formats_command :
  (forall (str_upper : str -> str) (attr : str) (init : list str)
          (a_n : str) (s : Local),
     ~ In attr (instance_dict (this s)) ->
     init <> [] ->
     call_fallback str_upper attr (init ++ [a_n]) s =
     (Returned tt,
      enqueued [Str (str_upper attr ++ lit " " ++ Py.join (lit " ") init
                     ++ lit " :" ++ a_n)] s))
  /\ (forall s : Local,
        call_fallback ascii_upper (lit "mode")
          [lit "#chan"; lit "+o"; lit "alice"] s =
        (Returned tt, enqueued [Str (lit "MODE #chan +o :alice")] s)).
Proof.
  split.
  - intros up attr init a_n s H _. now apply call_fallback_sends.
  - intros s.
    apply (call_fallback_sends ascii_upper (lit "mode")
             [lit "#chan"; lit "+o"] (lit "alice") s).
    apply mode_not_instance_attr.
Qed.

Lemma fallback_formats_command_witness :
  call_fallback ascii_upper (lit "kick")
    ([lit "#chan"; lit "alice"] ++ [lit "bye now"]) fresh
  = (Returned tt, enqueued [Str (lit "KICK #chan alice :bye now")] fresh).
Proof.
  apply (proj1 fallback_formats_command ascii_upper (lit "kick")
           [lit "#chan"; lit "alice"] (lit "bye now") fresh).
  - intros H; vm_compute in H; intuition discriminate.
  - discriminate.
Defined.

(** C10. A call [conn.attr(a)] with one argument that reaches the
    catch-all enqueues the upper-cased command name, two spaces, [:] and
    [a]: the join of no leading argument is empty and both separating
    spaces are still there. In particular [nick("newnick")] enqueues
    [NICK  :newnick]. *)
Theorem fallback_single_argument :
  (forall (str_upper : str -> str) (attr a : str) (s : Local),
     ~ In attr (instance_dict (this s)) ->
     call_fallback str_upper attr [a] s =
     (Returned tt, enqueued [Str (str_upper attr ++ lit "  :" ++ a)] s))
  /\ (forall s : Local,
        call_fallback ascii_upper (lit "nick") [lit "newnick"] s =
        (Returned tt, enqueued [Str (lit "NICK  :newnick")] s)).
Proof.
  split.
  - intros up attr a s H.
    apply (call_fallback_sends up attr [] a s H).
  - intros s.
    apply (call_fallback_sends ascii_upper (lit "nick") [] (lit "newnick") s).
    apply nick_not_instance_attr.
Qed.

Lemma fallback_single_argument_witness :
  call_fallback ascii_upper (lit "away") [lit "lunch"] fresh
  = (Returned tt, enqueued [Str (lit "AWAY  :lunch")] fresh).
Proof.
  apply (proj1 fallback_single_argument ascii_upper (lit "away")
           (lit "lunch") fresh).
  intros H; vm_compute in H; intuition discriminate.
Defined.

(* ================================================================== *)
(** * The hostmask resolver *)
(* ================================================================== *)

Lemma split1_first c l rest :
  ~ In c l -> split1 c (l ++ c :: rest) = [l; rest].
Proof.
  intros H. unfold split1. rewrite (index_first c l rest H).
  now rewrite firstn_prefix, skipn_prefix.
Qed.

Lemma split1_absent c s : ~ In c s -> split1 c s = [s].
Proof. intros H. unfold split1. now rewrite index_none. Qed.

(** A hostmask is taken apart at its first [!] and at the first [@]
    after it. *)
Lemma from_hostmask_well_formed nick user host :
  ~ In User.bang nick -> ~ In User.at_sign user ->
  User.from_hostmask (nick ++ User.bang :: user ++ User.at_sign :: host)
  = Returned (User.__init__ (Some nick) (Some user) host).
Proof.
  intros Hn Hu. unfold User.from_hostmask.
  assert (E1 : contains User.bang
                 (nick ++ User.bang :: user ++ User.at_sign :: host) = true).
  { apply contains_In, in_or_app. right. now left. }
  assert (E2 : contains User.at_sign
                 (nick ++ User.bang :: user ++ User.at_sign :: host) = true).
  { apply contains_In, in_or_app. right. right. apply in_or_app. right.
    now left. }
  rewrite E1, E2. cbn [andb].
  rewrite (split1_first _ _ _ Hn), (split1_first _ _ _ Hu). reflexivity.
Qed.

(** A text without [!] or without [@] becomes a bare host. *)
Lemma from_hostmask_bare s :
  ~ In User.bang s \/ ~ In User.at_sign s ->
  User.from_hostmask s = Returned (User.__init__ None None s).
Proof.
  intros H. unfold User.from_hostmask.
  destruct (contains User.bang s) eqn:E1; [|reflexivity].
  destruct (contains User.at_sign s) eqn:E2; [|reflexivity].
  apply contains_In in E1, E2. tauto.
Qed.

(** The case the guard lets through: an [@] occurs, but none after the
    first [!]. *)
Lemma from_hostmask_no_at_after_bang nick rest :
  ~ In User.bang nick -> In User.at_sign nick -> ~ In User.at_sign rest ->
  User.from_hostmask (nick ++ User.bang :: rest) = Raised ValueError.
Proof.
  intros Hn Ha Hr. unfold User.from_hostmask.
  assert (E1 : contains User.bang (nick ++ User.bang :: rest) = true).
  { apply contains_In, in_or_app. right. now left. }
  assert (E2 : contains User.at_sign (nick ++ User.bang :: rest) = true).
  { apply contains_In, in_or_app. now left. }
  rewrite E1, E2. cbn [andb].
  rewrite (split1_first _ _ _ Hn), (split1_absent _ _ Hr). reflexivity.
Qed.

Example from_hostmask_full :
  User.from_hostmask (lit "nick!user@host.com")
  = Returned {| User.nick := Some (lit "nick");
                User.user := Some (lit "user");
                User.host := lit "host.com";
                User.hostmask := lit "nick!user@host.com";
                User._register_wait := 0 |}.
Proof. reflexivity. Qed.

Example from_hostmask_server :
  User.from_hostmask (lit "irc.server.net")
  = Returned {| User.nick := None; User.user := None;
                User.host := lit "irc.server.net";
                User.hostmask := lit "None!None@irc.server.net";
                User._register_wait := 0 |}.
Proof. reflexivity. Qed.

(** C6. On the text [a@b!c], which contains both [!] and [@],
    [from_hostmask] does not return an identity: the text after the
    first [!] has no [@], and unpacking the split raises [ValueError];
    so does [get_user], which has the same guard. *)
Theorem from_hostmask_raises_on_at_before_bang :
  User.from_hostmask (lit "a@b!c") = Raised ValueError
  /\ get_user (lit "a@b!c") = Raised ValueError.
Proof. split; reflexivity. Qed.

(* ================================================================== *)
(** * Plugins *)
(* ================================================================== *)

Lemma load_plugins_sublist G (import_module : str -> M (list str * G) unit)
      (plugins xs : list str) st :
  incl xs plugins ->
  for_ xs (fun plugin =>
    if negb (if in_dec str_eq_dec plugin plugins then true else false)
    then import_module plugin else ret tt) st = (Returned tt, st).
Proof.
  induction xs as [|x xs IH]; intros Hin; [reflexivity|].
  cbn [for_]. unfold bind at 1.
  destruct (in_dec str_eq_dec x plugins) as [_|n].
  - cbn [negb]. cbv beta iota delta [ret]. apply IH.
    intros y Hy. apply Hin. now right.
  - exfalso. apply n, Hin. now left.
Qed.

(** C9. Whatever the arguments and whatever importing a module would do,
    [load_plugins] imports nothing: each requested plugin is looked up in
    the argument tuple itself, where it is, so the import is never
    reached and the module state, the global plugin list included, is
    left as it was. *)
Theorem load_plugins_imports_nothing :
  forall (G : Type) (import_module : str -> M (list str * G) unit)
         (plugins : list str) (st : list str * G),
    load_plugins G import_module plugins st = (Returned tt, st).
Proof.
  intros. unfold load_plugins. apply load_plugins_sublist, incl_refl.
Qed.

(* ================================================================== *)
(** * Connecting and reconnecting *)
(* ================================================================== *)

Lemma connection_made_opens p t c sg tm :
  connection_made p t {| this := c; signals := sg; timers := tm |}
  = (Returned tt,
     {| this := opened t c; signals := sg ++ [connected p];
        timers := tm ++ [{| delay := (3 # 2)%Q; callback := p |}] |}).
Proof. destruct c. reflexivity. Qed.

(** Running a method on the youngest object of the heap. *)
Lemma at_youngest {A} (m : M Local A) h c ws b l :
  at_ (length h) m {| heap := h ++ [c]; wrappers := ws; bus := b; loop := l |}
  = (fst (m {| this := c; signals := b; timers := l |}),
     {| heap :=
          h ++ [this (snd (m {| this := c; signals := b; timers := l |}))];
        wrappers := ws;
        bus := signals (snd (m {| this := c; signals := b; timers := l |}));
        loop := timers (snd (m {| this := c; signals := b; timers := l |}))
     |}).
Proof.
  unfold at_. cbn [heap wrappers bus loop].
  rewrite list_lookup_middle by reflexivity.
  destruct (m _) as [res s]. cbn [fst snd].
  rewrite insert_app_r_alt by lia. rewrite Nat.sub_diag. reflexivity.
Qed.

Lemma create_connection_opens info h ws b l :
  create_connection info {| heap := h; wrappers := ws; bus := b; loop := l |}
  = (Returned (length h),
     {| heap := h ++ [opened {| peer := info; sent := [] |} blank];
        wrappers := ws; bus := b ++ [connected (length h)];
        loop := l ++ [{| delay := (3 # 2)%Q; callback := length h |}] |}).
Proof.
  unfold create_connection, new_protocol.
  cbv beta iota delta [bind ret]. cbn [heap wrappers bus loop].
  rewrite at_youngest, connection_made_opens. reflexivity.
Qed.

(** [connect] leaves a connection that carries its parameters and a
    wrapper that points to it. *)
Lemma connect_result server port use_ssl h ws b l :
  let info := {| host := server; port := port; ssl := use_ssl |} in
  connect server port use_ssl
    {| heap := h; wrappers := ws; bus := b; loop := l |}
  = (Returned (length ws),
     {| heap := h ++ [set_server_info (Some info)
                        (set_wrapper (Some (length ws))
                           (opened {| peer := info; sent := [] |} blank))];
        wrappers := ws ++ [{| protocol := length h |}];
        bus := b ++ [connected (length h)];
        loop := l ++ [{| delay := (3 # 2)%Q; callback := length h |}] |}).
Proof.
  intros info. unfold connect.
  rewrite (bind_returned _ _ _ _ _ (create_connection_opens info h ws b l)).
  unfold new_wrapper. cbv beta iota delta [bind ret].
  cbn [heap wrappers bus loop].
  rewrite at_youngest. cbn [fst snd on_this modify this signals timers].
  rewrite at_youngest. reflexivity.
Qed.

Lemma server_info_not_in_dict c :
  server_info c = None -> ~ In (lit "server_info") (instance_dict c).
Proof.
  intros E. unfold instance_dict. rewrite E. cbn.
  intros H. repeat (destruct H as [H|H]; [discriminate H|]). exact H.
Qed.

Section Reconnect.

Variable str_upper : str -> str.

Lemma getattr_server_info_set c info sg tm :
  server_info c = Some info ->
  getattr_server_info str_upper {| this := c; signals := sg; timers := tm |}
  = (Returned (inl info), {| this := c; signals := sg; timers := tm |}).
Proof.
  intros E. unfold getattr_server_info.
  cbv beta iota delta [bind self_ get ret]. cbn [this]. now rewrite E.
Qed.

(** Without the attribute the catch-all answers, with a closure. *)
Lemma getattr_server_info_unset c sg tm :
  server_info c = None ->
  exists f,
    getattr_server_info str_upper {| this := c; signals := sg; timers := tm |}
    = (Returned (inr (SendCommand f)),
       {| this := c; signals := sg; timers := tm |}).
Proof.
  intros E. unfold getattr_server_info, __getattr__.
  cbv beta iota delta [bind self_ get ret]. cbn [this]. rewrite E.
  cbv beta iota delta [bind self_ get ret]. cbn [this].
  destruct (in_dec str_eq_dec (lit "server_info") (instance_dict c)) as [i|_].
  - now apply server_info_not_in_dict in i.
  - eexists. reflexivity.
Qed.

Lemma wrapper_protocol_youngest h ws wr b l :
  wrapper_protocol (length ws)
    {| heap := h; wrappers := ws ++ [wr]; bus := b; loop := l |}
  = (Returned (protocol wr),
     {| heap := h; wrappers := ws ++ [wr]; bus := b; loop := l |}).
Proof.
  unfold wrapper_protocol. cbn [wrappers].
  now rewrite list_lookup_middle by reflexivity.
Qed.

(** A reconnect from a connection that carries its parameters opens a
    connection to the same peer and repoints the wrapper to it. *)
Lemma reconnect_result h c ws wr b l info :
  server_info c = Some info -> protocol wr = length h ->
  reconnect str_upper (Some (length ws))
    {| heap := h ++ [c]; wrappers := ws ++ [wr]; bus := b; loop := l |}
  = (Returned tt,
     {| heap := (h ++ [c]) ++ [opened {| peer := info; sent := [] |} blank];
        wrappers := ws ++ [{| protocol := length (h ++ [c]) |}];
        bus := b ++ [connected (length (h ++ [c]))];
        loop := l ++ [{| delay := (3 # 2)%Q;
                         callback := length (h ++ [c]) |}] |}).
Proof.
  intros E Hp. unfold reconnect. cbn [or_raise]. rewrite bind_ret.
  rewrite (bind_returned _ _ _ _ _ (wrapper_protocol_youngest _ _ _ _ _)).
  rewrite Hp. unfold bind at 1. rewrite at_youngest.
  rewrite (getattr_server_info_set c info b l E).
  cbn [fst snd this signals timers].
  unfold bind at 1, ret at 1.
  rewrite (bind_returned _ _ _ _ _ (create_connection_opens info _ _ _ _)).
  unfold set_wrapper_protocol, modify. cbn [heap wrappers bus loop].
  rewrite insert_app_r_alt by lia. rewrite Nat.sub_diag. reflexivity.
Qed.

Lemma reconnect_without_info h c ws wr b l :
  server_info c = None -> protocol wr = length h ->
  fst (reconnect str_upper (Some (length ws))
         {| heap := h ++ [c]; wrappers := ws ++ [wr]; bus := b; loop := l |})
  = Raised TypeError.
Proof.
  intros E Hp. unfold reconnect. cbn [or_raise]. rewrite bind_ret.
  rewrite (bind_returned _ _ _ _ _ (wrapper_protocol_youngest _ _ _ _ _)).
  rewrite Hp. unfold bind at 1. rewrite at_youngest.
  destruct (getattr_server_info_unset c b l E) as [f ->].
  reflexivity.
Qed.

End Reconnect.

(** C2. After [connect] and one run of the reconnection reaction, the
    connection the wrapper points to was opened to the peer of the
    original call, but it carries no [server_info] (and no [wrapper]):
    [reconnect] sets neither on the object it creates. A further
    reconnect through the wrapper therefore raises [TypeError], and a
    loss of the new connection hands [None] to [reconnect], which raises
    [AttributeError]. *)
Theorem reconnect_forgets_server_info :
  forall (str_upper : str -> str) (server : str) (port : N) (use_ssl : bool)
         (w0 : World),
    let info := {| host := server; port := port; ssl := use_ssl |} in
    exists (cw : wref) (w1 w2 : World) (p2 : ref) (c2 : IRCProtocol),
      connect server port use_ssl w0 = (Returned cw, w1)
      /\ reconnect str_upper (Some cw) w1 = (Returned tt, w2)
      /\ wrappers w2 !! cw = Some {| protocol := p2 |}
      /\ heap w2 !! p2 = Some c2
      /\ peer (transport c2) = info
      /\ server_info c2 = None
      /\ wrapper c2 = None
      /\ fst (reconnect str_upper (Some cw) w2) = Raised TypeError
      /\ fst (connection_lost str_upper p2 w2) = Raised AttributeError.
Proof.
  intros up server port use_ssl [h ws b l] info.
  eexists _, _, _, _, (opened {| peer := info; sent := [] |} blank).
  split; [apply connect_result|].
  split; [now apply reconnect_result|].
  cbn [heap wrappers].
  split; [now apply list_lookup_middle|].
  split; [now apply list_lookup_middle|].
  split; [reflexivity|]. split; [reflexivity|]. split; [reflexivity|].
  split.
  - now apply reconnect_without_info.
  - unfold connection_lost. unfold bind at 1. rewrite at_youngest.
    cbn [fst snd]. cbv beta iota delta [bind self_ get ret].
    cbn [fst snd this signals timers].
    rewrite at_youngest. reflexivity.
Qed.

(* ================================================================== *)
(** * Further properties of the framing loop *)
(* ================================================================== *)

Lemma count_LF_no_LF s : no_LF s -> count_occ N.eq_dec s LF = 0%nat.
Proof. intros H. now apply count_occ_not_In. Qed.

Lemma count_LF_frame lines rem :
  Forall no_LF lines -> no_LF rem ->
  count_occ N.eq_dec (frame lines rem) LF = length lines.
Proof.
  intros Hl Hr. induction Hl as [|l lines H1 Hl IH].
  - rewrite frame_nil. now apply count_LF_no_LF.
  - rewrite frame_cons, count_occ_app. unfold codepoint.
    rewrite (count_LF_no_LF l H1).
    rewrite count_occ_cons_eq by reflexivity. rewrite IH. reflexivity.
Qed.

(** X1. Whatever the buffer holds, [data_received] returns on a chunk
    that decodes: it emits one [raw] signal for each terminator in the
    buffer followed by the new text, and the buffer it leaves holds no
    terminator. On a chunk that does not decode it raises
    [UnicodeDecodeError] and leaves buffer and signals as they were. *)
Theorem data_received_leaves_no_terminator :
  forall (self : ref) (data : bytes) (s : Local),
    (forall t : str,
       utf8_decode data = Some t ->
       exists (lines : list str) (rem : str),
         buf (this s) ++ t = frame lines rem
         /\ Forall no_LF lines /\ no_LF rem
         /\ length lines = count_occ N.eq_dec (buf (this s) ++ t) LF
         /\ data_received self data s
            = (Returned tt, framed self (map strip lines) rem s))
    /\ (utf8_decode data = None ->
        data_received self data s = (Raised UnicodeDecodeError, s)).
Proof.
  intros self data s. split.
  - intros t Hd.
    destruct (frame_exists (buf (this s) ++ t)) as (lines & rem & E & Hl & Hr).
    exists lines, rem. split; [exact E|]. split; [exact Hl|].
    split; [exact Hr|]. split.
    + rewrite E. symmetry. now apply count_LF_frame.
    + now apply (data_received_frames self data t).
  - intros Hd. unfold data_received. rewrite Hd. reflexivity.
Qed.

(** The end of a line, an empty line and the start of a third one, on a
    buffer that holds the start of the first. *)
Lemma data_received_leaves_no_terminator_witness :
  exists (lines : list str) (rem : str),
    buf (this (framed 0 [] (lit "PI") fresh)) ++ lit "NG" ++ [LF; LF] ++ lit "x"
    = frame lines rem
    /\ Forall no_LF lines /\ no_LF rem
    /\ length lines
       = count_occ N.eq_dec
           (buf (this (framed 0 [] (lit "PI") fresh))
            ++ lit "NG" ++ [LF; LF] ++ lit "x") LF
    /\ data_received 0 (blit "NG" ++ [x0a; x0a] ++ blit "x")
         (framed 0 [] (lit "PI") fresh)
       = (Returned tt,
          framed 0 (map strip lines) rem (framed 0 [] (lit "PI") fresh)).
Proof.
  apply (proj1 (data_received_leaves_no_terminator 0
                  (blit "NG" ++ [x0a; x0a] ++ blit "x")
                  (framed 0 [] (lit "PI") fresh))
               (lit "NG" ++ [LF; LF] ++ lit "x")).
  reflexivity.
Defined.

(** ** What [strip] leaves *)

Lemma lstrip_head s c r : lstrip s = c :: r -> isspace c = false.
Proof.
  induction s as [|x s IH]; cbn [lstrip]; [discriminate|].
  destruct (isspace x) eqn:E; [exact IH|]. intros [= <- _]. exact E.
Qed.

Lemma lstrip_suffix s : exists p, s = p ++ lstrip s.
Proof.
  induction s as [|x s [p IH]]; [now exists []|]. cbn [lstrip].
  destruct (isspace x).
  - exists (x :: p). cbn [app]. now f_equal.
  - now exists [].
Qed.

Lemma lstrip_In x s : In x (lstrip s) -> In x s.
Proof.
  destruct (lstrip_suffix s) as [p E]. intros H. rewrite E.
  apply in_or_app. now right.
Qed.

Lemma lstrip_keeps_last l c :
  isspace c = false -> exists x, lstrip (l ++ [c]) = x ++ [c].
Proof.
  intros Hc. induction l as [|y l [x IH]]; cbn [app lstrip].
  - rewrite Hc. now exists [].
  - destruct (isspace y); [now exists x|]. now exists (y :: l).
Qed.

Lemma rstrip_In x s : In x (rstrip s) -> In x s.
Proof.
  unfold rstrip. intros H. apply in_rev in H. apply lstrip_In in H.
  now apply in_rev in H.
Qed.

Lemma strip_In x s : In x (strip s) -> In x s.
Proof. unfold strip. intros H. now apply lstrip_In, rstrip_In. Qed.

Lemma rstrip_last s c : last (rstrip s) = Some c -> isspace c = false.
Proof.
  unfold rstrip. destruct (lstrip (rev s)) as [|y r] eqn:E.
  - discriminate.
  - cbn [rev]. rewrite last_snoc. intros [= <-]. now apply lstrip_head in E.
Qed.

Lemma rstrip_head c r x t :
  isspace c = false -> rstrip (c :: r) = x :: t -> x = c.
Proof.
  intros Hc. unfold rstrip. cbn [rev].
  destruct (lstrip_keeps_last (rev r) c Hc) as [y ->].
  rewrite rev_app_distr. cbn [rev app]. now intros [= <- _].
Qed.

Lemma strip_head s c r : strip s = c :: r -> isspace c = false.
Proof.
  unfold strip. destruct (lstrip s) as [|y l] eqn:E.
  - discriminate.
  - intros H. pose proof (lstrip_head _ _ _ E) as Hy.
    now rewrite (rstrip_head y l c r Hy H).
Qed.

Lemma strip_last s c : last (strip s) = Some c -> isspace c = false.
Proof. unfold strip. apply rstrip_last. Qed.

Lemma strip_trimmed l : no_LF l -> trimmed (strip l).
Proof.
  intros H. split; [|split].
  - intros Hin. apply H. now apply strip_In.
  - intros c r. apply strip_head.
  - apply strip_last.
Qed.

(** X2. Every text [data_received] hands to the listeners of [raw] is
    free of terminators and neither starts nor ends with whitespace (a
    carriage return before the terminator is gone), whatever the buffer
    held and whatever the chunk brings. *)
Theorem raw_lines_are_trimmed :
  forall (self : ref) (data : bytes) (t : str) (s : Local),
    utf8_decode data = Some t ->
    exists (texts : list str) (rem : str),
      data_received self data s = (Returned tt, framed self texts rem s)
      /\ Forall trimmed texts.
Proof.
  intros self data t s Hd.
  destruct (frame_exists (buf (this s) ++ t)) as (lines & rem & E & Hl & Hr).
  exists (map strip lines), rem. split.
  - now apply (data_received_frames self data t).
  - clear E. induction Hl as [|l lines H1 Hl IH]; cbn [map];
      [constructor|constructor; [now apply strip_trimmed|exact IH]].
Qed.

Lemma raw_lines_are_trimmed_witness :
  exists (texts : list str) (rem : str),
    data_received 0 (blit " :srv NOTICE * :hi  " ++ [x0d; x0a]) fresh
    = (Returned tt, framed 0 texts rem fresh)
    /\ Forall trimmed texts.
Proof.
  apply (raw_lines_are_trimmed 0 (blit " :srv NOTICE * :hi  " ++ [x0d; x0a])
           (lit " :srv NOTICE * :hi  " ++ [13%N; LF]) fresh).
  reflexivity.
Defined.

(** X3. Feeding chunks one after the other is feeding their
    concatenation at once: when every chunk decodes on its own and the
    buffer holds no terminator, both leave the same buffer and emit the
    same signals. *)
Theorem feeding_chunks_is_feeding_their_concatenation :
  forall (self : ref) (chunks : list bytes) (s : Local),
    no_LF (buf (this s)) ->
    Forall (fun c => utf8_decode c <> None) chunks ->
    feed self chunks s = data_received self (List.concat chunks) s.
Proof.
  intros self chunks s Hb Hc.
  destruct (decode_chunks chunks Hc) as (texts & H2 & E).
  destruct (frame_exists (buf (this s) ++ List.concat texts))
    as (lines & rem & Ef & Hl & Hr).
  rewrite (feed_frames self chunks texts lines rem s H2 Hb Hl Hr Ef).
  symmetry.
  apply (data_received_frames self (List.concat chunks) (List.concat texts)
           lines rem s E Hl Hr Ef).
Qed.

Lemma feeding_chunks_is_feeding_their_concatenation_witness :
  feed 0 [blit "NG :a"; [x0d; x0a] ++ blit "NOT"; blit "ICE" ++ [x0a]]
       (framed 0 [] (lit "PI") fresh)
  = data_received 0
      (List.concat [blit "NG :a"; [x0d; x0a] ++ blit "NOT";
                    blit "ICE" ++ [x0a]])
      (framed 0 [] (lit "PI") fresh).
Proof.
  apply (feeding_chunks_is_feeding_their_concatenation 0
           [blit "NG :a"; [x0d; x0a] ++ blit "NOT"; blit "ICE" ++ [x0a]]
           (framed 0 [] (lit "PI") fresh)).
  - intros H; vm_compute in H; intuition discriminate.
  - repeat constructor; intros H; vm_compute in H; discriminate H.
Defined.

(* ================================================================== *)
(** * Further properties of the outbound queue *)
(* ================================================================== *)


Lemma writeln_raw_refused l s :
  encoded l = None ->
  exists e s',
    _writeln l s = (Raised e, s')
    /\ signals s' = signals s /\ timers s' = timers s
    /\ queue (this s') = queue (this s)
    /\ match l with
       | Str _ => e = UnicodeEncodeError /\ s' = s
       | Bytes b =>
         e = UnicodeDecodeError
         /\ sent (transport (this s')) = sent (transport (this s)) ++ [b ++ CRLF]
       end.
Proof.
  destruct l as [t|b]; cbn [encoded]; intros He; unfold _writeln.
  - cbv beta iota delta [bind ret socket_send on_this modify or_raise raise].
    rewrite He. exists UnicodeEncodeError, s. repeat split.
  - destruct (utf8_decode b) eqn:Ed; [discriminate|].
    cbv beta iota delta [bind ret socket_send on_this modify or_raise raise].
    rewrite Ed. eexists _, _. split; [reflexivity|].
    cbn [this signals timers]. destruct s as [c sg tm]. destruct c.
    repeat split.
Qed.

(** X4. A firing whose line the low-level write refuses raises, and the
    drain stops: the line has been taken off the queue and is gone, no
    signal is emitted and no further firing is scheduled. Text that
    cannot be encoded is refused before anything is sent
    ([UnicodeEncodeError]); octets that cannot be decoded are refused
    after they went to the socket ([UnicodeDecodeError]). *)
Theorem refused_line_stops_the_drain :
  forall (self : ref) (l : line) (rest : list line) (s : Local),
    queue (this s) = l :: rest ->
    encoded l = None ->
    exists e s',
      process_queue self s = (Raised e, s')
      /\ queue (this s') = rest
      /\ timers s' = timers s
      /\ signals s' = signals s
      /\ match l with
         | Str _ =>
           e = UnicodeEncodeError
           /\ sent (transport (this s')) = sent (transport (this s))
         | Bytes b =>
           e = UnicodeDecodeError
           /\ sent (transport (this s'))
              = sent (transport (this s)) ++ [b ++ CRLF]
         end.
Proof.
  intros self l rest s Hq He. unfold process_queue.
  cbv beta iota delta [bind self_ get ret]. rewrite Hq.
  cbv beta iota delta [bind on_this modify].
  destruct (writeln_raw_refused l
              {| this := set_queue rest (this s); signals := signals s;
                 timers := timers s |} He) as (e & s' & Hw & Hs & Ht & Hq' & Hl).
  rewrite Hw. exists e, s'. split; [reflexivity|].
  cbn [this signals timers] in *.
  split; [rewrite Hq'; now destruct (this s)|].
  split; [exact Ht|]. split; [exact Hs|].
  destruct l as [t|b].
  - destruct Hl as [-> ->]. split; [reflexivity|]. cbn [this].
    now destruct (this s).
  - destruct Hl as [-> Hl]. split; [reflexivity|]. rewrite Hl.
    now destruct (this s).
Qed.

(** A text line with a lone surrogate. *)
Lemma refused_line_stops_the_drain_witness :
  exists e s',
    process_queue 0 (enqueued [Str [0xD800%N]; Str (lit "PING")] fresh)
    = (Raised e, s')
    /\ queue (this s') = [Str (lit "PING")]
    /\ timers s' = timers (enqueued [Str [0xD800%N]; Str (lit "PING")] fresh)
    /\ signals s' = signals (enqueued [Str [0xD800%N]; Str (lit "PING")] fresh)
    /\ (e = UnicodeEncodeError
        /\ sent (transport (this s'))
           = sent (transport
                     (this (enqueued [Str [0xD800%N]; Str (lit "PING")]
                                     fresh)))).
Proof.
  apply (refused_line_stops_the_drain 0 (Str [0xD800%N]) [Str (lit "PING")]
           (enqueued [Str [0xD800%N]; Str (lit "PING")] fresh)).
  - reflexivity.
  - reflexivity.
Defined.


Lemma wire_encoded l b : encoded l = Some b -> wire l = b ++ CRLF.
Proof. intros H. unfold wire. now rewrite H. Qed.

Lemma encoded_some l : encoded l <> None -> exists b, encoded l = Some b.
Proof. destruct (encoded l) as [b|]; [now exists b|congruence]. Qed.

(** X5. Under any interleaving of [writeln] calls and firings of the
    drain timer, when every line is one the low-level write accepts, no
    line is lost, duplicated or reordered: what the socket has received,
    followed by what is still queued, is what was sent before followed by
    the lines queued at the start and the lines given to [writeln], in
    order. Every firing schedules one further firing, and the socket
    receives at most one line per firing. *)
Theorem queue_conserves_lines :
  forall (self : ref) (acts : list action) (s : Local),
    Forall (fun l => encoded l <> None) (queue (this s) ++ lines_of acts) ->
    exists s',
      for_ acts (act self) s = (Returned tt, s')
      /\ sent (transport (this s')) ++ map wire (queue (this s'))
         = sent (transport (this s))
           ++ map wire (queue (this s) ++ lines_of acts)
      /\ timers s' = timers s ++ repeat (tick self s) (fires acts)
      /\ (length (sent (transport (this s')))
          <= length (sent (transport (this s))) + fires acts)%nat.
Proof.
  intros self acts. induction acts as [|a acts IH]; intros s Hw.
  - exists s. cbn [for_ lines_of fires repeat]. rewrite !app_nil_r.
    repeat split; lia.
  - destruct a as [l|]; cbn [for_ act lines_of fires].
    + rewrite (bind_returned _ _ _ _ _ (writeln_enqueued l s)).
      destruct (IH (enqueued [l] s)) as (s' & Hr & Hs & Ht & Hn).
      { unfold enqueued. cbn [this]. 
        replace (queue (set_queue (queue (this s) ++ [l]) (this s)))
          with (queue (this s) ++ [l]) by now destruct (this s).
        now rewrite <- app_assoc. }
      exists s'. split; [exact Hr|]. split.
      * rewrite Hs. unfold enqueued. cbn [this].
        replace (queue (set_queue (queue (this s) ++ [l]) (this s)))
          with (queue (this s) ++ [l]) by now destruct (this s).
        rewrite <- app_assoc. now destruct (this s).
      * split.
        -- rewrite Ht. unfold tick, enqueued. cbn [this timers].
           now destruct (this s).
        -- revert Hn. unfold enqueued. cbn [this]. now destruct (this s).
    + destruct (queue (this s)) as [|l rest] eqn:Hq.
      * rewrite (bind_returned _ _ _ _ _ (process_queue_idle self s Hq)).
        destruct (IH {| this := this s; signals := signals s;
                        timers := timers s ++ [tick self s] |})
          as (s' & Hr & Hs & Ht & Hn).
        { cbn [this]. now rewrite Hq. }
        cbn [this timers] in Hs, Ht, Hn. rewrite Hq in Hs.
        exists s'. split; [exact Hr|]. split; [exact Hs|]. split.
        -- rewrite Ht. cbn [repeat]. now rewrite <- app_assoc.
        -- lia.
      * assert (Hl : encoded l <> None).
        { inversion Hw; assumption. }
        destruct (encoded_some l Hl) as [b Hb].
        destruct (process_queue_sends self l rest b s Hq Hb)
          as (s1 & Hp & Hq1 & Hs1 & Ht1 & Hd1).
        rewrite (bind_returned _ _ _ _ _ Hp).
        destruct (IH s1) as (s' & Hr & Hs & Ht & Hn).
        { rewrite Hq1. cbn [app] in Hw. inversion Hw; assumption. }
        exists s'. split; [exact Hr|]. split; [|split].
        -- rewrite Hs, Hs1, Hq1. cbn [app map]. rewrite (wire_encoded l b Hb).
           now rewrite <- app_assoc.
        -- rewrite Ht, Ht1. cbn [repeat]. rewrite <- app_assoc.
           unfold tick. now rewrite Hd1.
        -- rewrite Hs1, length_app in Hn. cbn [length] in Hn. lia.
Qed.

(** A firing on the empty queue, two lines, a firing, a line, a firing. *)
Lemma queue_conserves_lines_witness :
  exists s',
    for_ [Fire; Enqueue (Str (lit "NICK bot")); Enqueue (Bytes (blit "PING"));
          Fire; Enqueue (Str (lit "QUIT")); Fire] (act 0) fresh
    = (Returned tt, s')
    /\ sent (transport (this s')) ++ map wire (queue (this s'))
       = sent (transport (this fresh))
         ++ map wire (queue (this fresh)
                      ++ lines_of [Fire; Enqueue (Str (lit "NICK bot"));
                                   Enqueue (Bytes (blit "PING")); Fire;
                                   Enqueue (Str (lit "QUIT")); Fire])
    /\ timers s'
       = timers fresh
         ++ repeat (tick 0 fresh)
              (fires [Fire; Enqueue (Str (lit "NICK bot"));
                      Enqueue (Bytes (blit "PING")); Fire;
                      Enqueue (Str (lit "QUIT")); Fire])
    /\ (length (sent (transport (this s')))
        <= length (sent (transport (this fresh)))
           + fires [Fire; Enqueue (Str (lit "NICK bot"));
                    Enqueue (Bytes (blit "PING")); Fire;
                    Enqueue (Str (lit "QUIT")); Fire])%nat.
Proof.
  apply (queue_conserves_lines 0
           [Fire; Enqueue (Str (lit "NICK bot")); Enqueue (Bytes (blit "PING"));
            Fire; Enqueue (Str (lit "QUIT")); Fire] fresh).
  repeat constructor; intros H; vm_compute in H; discriminate H.
Defined.

(* ================================================================== *)
(** * Further properties of the protocol operations *)
(* ================================================================== *)

(** X6. [say] loses no character: the payloads of the lines it enqueues,
    put together, are the message; none is empty or longer than 400
    characters; and there are as many lines as the length of the message
    divided by 400, rounded up (none for the empty message). *)
Theorem say_loses_no_character :
  forall (target message : str) (s : Local),
    exists cs : list str,
      say target message s
      = (Returned tt, enqueued (map (privmsg target) cs) s)
      /\ List.concat cs = message
      /\ Forall (fun c => (1 <= length c <= 400)%nat) cs
      /\ length cs = ((length message + 399) / 400)%nat.
Proof.
  intros target message s. exists (chunks_of 400 message).
  split; [unfold say; now apply say_loop_chunks|].
  destruct (chunks_of_concat 400 ltac:(lia) (length message) message
              (Nat.le_refl _)) as [E F].
  split; [exact E|]. split; [exact F|].
  unfold chunks_of. now rewrite length_map, length_seq.
Qed.

(** X7. [join], [part], [say] and the catch-all only append to the
    outbound queue: they send nothing, emit no signal and schedule no
    timer, and the lines queued before stay in front. [join] and [part]
    enqueue one line with the channels joined by commas, a single
    channel counting as the list of that one channel; the catch-all
    enqueues one line when it has an argument, and with no argument it
    raises [IndexError] and leaves the queue as it was. *)
Theorem operations_only_enqueue :
  (forall (chs : channels) (s : Local),
     join chs s
     = (Returned tt,
        enqueued [Str (lit "JOIN " ++ Py.join (lit ",") (as_list chs))] s))
  /\ (forall (chs : channels) (s : Local),
        part chs s
        = (Returned tt,
           enqueued [Str (lit "PART " ++ Py.join (lit ",") (as_list chs))] s))
  /\ (forall (c : str) (s : Local),
        join (Channel c) s = join (ChannelList [c]) s
        /\ part (Channel c) s = part (ChannelList [c]) s)
  /\ (forall (target message : str) (s : Local),
        exists ls, say target message s = (Returned tt, enqueued ls s))
  /\ (forall (str_upper : str -> str) (attr : str) (args : list str)
             (s : Local),
        ~ In attr (instance_dict (this s)) ->
        match args with
        | [] => call_fallback str_upper attr args s = (Raised IndexError, s)
        | _ :: _ =>
          exists l,
            call_fallback str_upper attr args s
            = (Returned tt, enqueued [l] s)
        end).
Proof.
  split; [|split; [|split; [|split]]].
  - intros chs s. reflexivity.
  - intros chs s. reflexivity.
  - intros c s. split; reflexivity.
  - intros target message s. eexists. unfold say.
    now apply say_loop_chunks.
  - intros up attr args s H. destruct args as [|a args].
    + now apply call_fallback_no_argument.
    + destruct (exists_last (l := a :: args) ltac:(discriminate))
        as (init & a_n & ->).
      eexists. now apply call_fallback_sends.
Qed.

Lemma operations_only_enqueue_witness :
  call_fallback ascii_upper (lit "quit") [] fresh = (Raised IndexError, fresh).
Proof.
  apply (proj2 (proj2 (proj2 (proj2 operations_only_enqueue))) ascii_upper
           (lit "quit") [] fresh).
  intros H; vm_compute in H; intuition discriminate.
Defined.

(** ** Lines that the low-level write accepts *)

Lemma utf8_encode_app a b :
  utf8_encode (a ++ b)
  = match utf8_encode a, utf8_encode b with
    | Some x, Some y => Some (x ++ y)
    | _, _ => None
    end.
Proof.
  induction a as [|c a IH]; cbn [app utf8_encode].
  - now destruct (utf8_encode b).
  - rewrite IH. destruct (utf8_encode_cp c) as [bc|]; [|reflexivity].
    destruct (utf8_encode a) as [x|]; [|reflexivity].
    destruct (utf8_encode b) as [y|]; [|reflexivity].
    now rewrite app_assoc.
Qed.

Lemma utf8_encode_utf8 s : utf8_encode s <> None -> utf8_encode s = Some (utf8 s).
Proof. unfold utf8. destruct (utf8_encode s); congruence. Qed.

Lemma utf8_encode_cat a b :
  utf8_encode a <> None -> utf8_encode b <> None ->
  utf8_encode (a ++ b) <> None /\ utf8 (a ++ b) = utf8 a ++ utf8 b.
Proof.
  intros Ha Hb. unfold utf8. rewrite utf8_encode_app.
  destruct (utf8_encode a); [|congruence].
  destruct (utf8_encode b); [|congruence]. split; [discriminate|reflexivity].
Qed.

Lemma utf8_encode_parts a b :
  utf8_encode (a ++ b) <> None ->
  utf8_encode a <> None /\ utf8_encode b <> None.
Proof.
  rewrite utf8_encode_app.
  destruct (utf8_encode a); [|congruence].
  destruct (utf8_encode b); [|congruence]. split; discriminate.
Qed.

Lemma utf8_encode_firstn n s :
  utf8_encode s <> None -> utf8_encode (firstn n s) <> None.
Proof.
  intros H. rewrite <- (firstn_skipn n s) in H.
  now apply utf8_encode_parts in H.
Qed.

Lemma utf8_encode_skipn n s :
  utf8_encode s <> None -> utf8_encode (skipn n s) <> None.
Proof.
  intros H. rewrite <- (firstn_skipn n s) in H.
  now apply utf8_encode_parts in H.
Qed.

Lemma encoded_privmsg target chunk :
  utf8_encode target <> None -> utf8_encode chunk <> None ->
  encoded (privmsg target chunk) = Some (privmsg_octets target chunk).
Proof.
  intros Ht Hc. unfold privmsg, privmsg_octets. cbn [encoded].
  assert (H1 : utf8_encode (lit " :") <> None) by discriminate.
  assert (H0 : utf8_encode (lit "PRIVMSG ") <> None) by discriminate.
  destruct (utf8_encode_cat _ _ H1 Hc) as [N1 E1].
  destruct (utf8_encode_cat _ _ Ht N1) as [N2 E2].
  destruct (utf8_encode_cat _ _ H0 N2) as [N3 E3].
  rewrite (utf8_encode_utf8 _ N3), E3, E2, E1. reflexivity.
Qed.

Lemma chunks_of_encodable message :
  utf8_encode message <> None ->
  Forall (fun c => utf8_encode c <> None) (chunks_of 400 message).
Proof.
  intros H. unfold chunks_of. apply List.Forall_forall. intros c Hc.
  apply in_map_iff in Hc as (i & <- & _).
  now apply utf8_encode_firstn, utf8_encode_skipn.
Qed.

Lemma privmsg_lines_encoded target cs :
  utf8_encode target <> None ->
  Forall (fun c => utf8_encode c <> None) cs ->
  Forall2 (fun l b => encoded l = Some b)
          (map (privmsg target) cs) (map (privmsg_octets target) cs).
Proof.
  intros Ht. induction 1 as [|c cs Hc _ IH]; cbn [map]; constructor.
  - now apply encoded_privmsg.
  - exact IH.
Qed.

(** X8. When target and message can be encoded as UTF-8, every line
    [say] enqueues is one the drain can send: after [say] on an empty
    queue and [k] firings, the socket has received the first [k] lines
    [PRIVMSG <target> :<chunk>], as UTF-8 and each followed by CR LF, in
    the order of the chunks, and the lines of the other chunks are still
    queued. The chunks are cut between characters, never inside the
    encoding of one. *)
Theorem say_reaches_the_wire :
  forall (self : ref) (target message : str) (k : nat) (s : Local),
    queue (this s) = [] ->
    utf8_encode target <> None ->
    utf8_encode message <> None ->
    exists s',
      (say target message ;; firings self k) s = (Returned tt, s')
      /\ sent (transport (this s'))
         = sent (transport (this s))
           ++ map (fun c => privmsg_octets target c ++ CRLF)
                  (firstn k (chunks_of 400 message))
      /\ queue (this s')
         = map (privmsg target) (skipn k (chunks_of 400 message)).
Proof.
  intros self target message k s Hq Ht Hm.
  unfold say.
  rewrite (bind_returned _ _ _ _ _
             (say_loop_chunks _ target message s (Nat.le_refl _))).
  destruct (firings_drain self k (map (privmsg target) (chunks_of 400 message))
              (map (privmsg_octets target) (chunks_of 400 message))
              (enqueued (map (privmsg target) (chunks_of 400 message)) s))
    as (s' & Hr & Hs & Hq' & _).
  { unfold enqueued. cbn [this]. rewrite Hq. now destruct (this s). }
  { apply privmsg_lines_encoded; [exact Ht|now apply chunks_of_encodable]. }
  exists s'. split; [exact Hr|]. split.
  - rewrite Hs. unfold enqueued. cbn [this].
    rewrite firstn_map, map_map. now destruct (this s).
  - rewrite Hq'. now rewrite skipn_map.
Qed.

(** 401 times a character of two octets. *)
Lemma say_reaches_the_wire_witness :
  exists s',
    (say (lit "#chan") (repeat 0xE9%N 401) ;; firings 0 1) fresh
    = (Returned tt, s')
    /\ sent (transport (this s'))
       = sent (transport (this fresh))
         ++ map (fun c => privmsg_octets (lit "#chan") c ++ CRLF)
                (firstn 1 (chunks_of 400 (repeat 0xE9%N 401)))
    /\ queue (this s')
       = map (privmsg (lit "#chan"))
             (skipn 1 (chunks_of 400 (repeat 0xE9%N 401))).
Proof.
  apply (say_reaches_the_wire 0 (lit "#chan") (repeat 0xE9%N 401) 1 fresh).
  - reflexivity.
  - intros H; vm_compute in H; discriminate H.
  - intros H; vm_compute in H; discriminate H.
Defined.

Lemma register_registered self nick user realname mode password s :
  register self nick user realname mode password s =
  (Returned tt,
   registered self nick
     (match password with
      | Some (c :: p) => [pass_line (c :: p)]
      | _ => []
      end ++ [user_line user mode realname; nick_line nick]) s).
Proof.
  destruct s as [c sg tm]. destruct c.
  destruct password as [[|x p]|]; unfold registered, set_nickname, set_queue;
    cbn; rewrite <- ?app_assoc; reflexivity.
Qed.

Lemma encoded_pass p :
  utf8_encode p <> None -> encoded (pass_line p) = Some (pass_octets p).
Proof.
  intros Hp. unfold pass_line, pass_octets. cbn [encoded].
  assert (H0 : utf8_encode (lit "PASS ") <> None) by discriminate.
  destruct (utf8_encode_cat _ _ H0 Hp) as [N1 E1].
  rewrite (utf8_encode_utf8 _ N1), E1. reflexivity.
Qed.

Lemma encoded_nick n :
  utf8_encode n <> None -> encoded (nick_line n) = Some (nick_octets n).
Proof.
  intros Hp. unfold nick_line, nick_octets. cbn [encoded].
  assert (H0 : utf8_encode (lit "NICK ") <> None) by discriminate.
  destruct (utf8_encode_cat _ _ H0 Hp) as [N1 E1].
  rewrite (utf8_encode_utf8 _ N1), E1. reflexivity.
Qed.

Lemma encoded_user u m r :
  utf8_encode u <> None -> utf8_encode m <> None -> utf8_encode r <> None ->
  encoded (user_line u m r) = Some (user_octets u m r).
Proof.
  intros Hu Hm Hr. unfold user_line, user_octets. cbn [encoded].
  assert (H0 : utf8_encode (lit "USER ") <> None) by discriminate.
  assert (H1 : utf8_encode (lit " ") <> None) by discriminate.
  assert (H2 : utf8_encode (lit " :") <> None) by discriminate.
  destruct (utf8_encode_cat _ _ H2 Hr) as [N1 E1].
  destruct (utf8_encode_cat _ _ Hu N1) as [N2 E2].
  destruct (utf8_encode_cat _ _ H1 N2) as [N3 E3].
  destruct (utf8_encode_cat _ _ Hm N3) as [N4 E4].
  destruct (utf8_encode_cat _ _ H1 N4) as [N5 E5].
  destruct (utf8_encode_cat _ _ Hu N5) as [N6 E6].
  destruct (utf8_encode_cat _ _ H0 N6) as [N7 E7].
  rewrite (utf8_encode_utf8 _ N7), E7, E6, E5, E4, E3, E2, E1. reflexivity.
Qed.

(** X9. When its arguments can be encoded as UTF-8, [register] on an
    empty queue followed by three firings of the drain timer puts on the
    socket, in this order and each followed by CR LF, [PASS <password>]
    (only for a password that is given and not empty),
    [USER <user> <mode> <user> :<realname>] and [NICK <nick>], and
    leaves the queue empty. *)
Theorem registration_reaches_the_wire :
  forall (self : ref) (nick user realname mode : str)
         (password : option str) (s : Local),
    queue (this s) = [] ->
    utf8_encode nick <> None -> utf8_encode user <> None ->
    utf8_encode realname <> None -> utf8_encode mode <> None ->
    (forall p, password = Some p -> utf8_encode p <> None) ->
    exists s',
      (register self nick user realname mode password ;; firings self 3) s
      = (Returned tt, s')
      /\ sent (transport (this s'))
         = sent (transport (this s))
           ++ match password with
              | Some (c :: p) => [pass_octets (c :: p) ++ CRLF]
              | _ => []
              end
           ++ [user_octets user mode realname ++ CRLF;
               nick_octets nick ++ CRLF]
      /\ queue (this s') = [].
Proof.
  intros self nick user realname mode password s Hq Hn Hu Hr Hm Hp.
  rewrite (bind_returned _ _ _ _ _
             (register_registered self nick user realname mode password s)).
  set (ls := match password with
             | Some (c :: p) => [pass_line (c :: p)]
             | _ => []
             end ++ [user_line user mode realname; nick_line nick]).
  set (ws := match password with
             | Some (c :: p) => [pass_octets (c :: p)]
             | _ => []
             end ++ [user_octets user mode realname; nick_octets nick]).
  assert (Hlen : (length ls <= 3)%nat).
  { unfold ls. destruct password as [[|? ?]|]; cbn; lia. }
  assert (HF : Forall2 (fun l b => encoded l = Some b) ls ws).
  { unfold ls, ws. destruct password as [[|c p]|]; cbn [app];
      repeat constructor;
      try (now apply encoded_user); try (now apply encoded_nick).
    apply encoded_pass. now apply Hp. }
  destruct (firings_drain self 3 ls ws (registered self nick ls s))
    as (s' & Hf & Hs & Hq' & Ht).
  { unfold registered. cbn [this]. rewrite Hq. now destruct (this s). }
  { exact HF. }
  exists s'. split; [exact Hf|]. split.
  - rewrite Hs. unfold registered. cbn [this].
    rewrite firstn_all2 by (rewrite <- (Forall2_length _ _ _ HF); exact Hlen).
    unfold ws. destruct password as [[|c p]|]; now destruct (this s).
  - rewrite Hq'. now apply skipn_all2.
Qed.

Lemma registration_reaches_the_wire_witness :
  exists s',
    (register 0 (lit "bot") (lit "ircbot") (lit "A bot") default_mode
       (Some (lit "hunter2")) ;; firings 0 3) fresh
    = (Returned tt, s')
    /\ sent (transport (this s'))
       = sent (transport (this fresh))
         ++ [pass_octets (lit "hunter2") ++ CRLF]
         ++ [user_octets (lit "ircbot") default_mode (lit "A bot") ++ CRLF;
             nick_octets (lit "bot") ++ CRLF]
    /\ queue (this s') = [].
Proof.
  apply (registration_reaches_the_wire 0 (lit "bot") (lit "ircbot")
           (lit "A bot") default_mode (Some (lit "hunter2")) fresh).
  - reflexivity.
  - intros H; vm_compute in H; discriminate H.
  - intros H; vm_compute in H; discriminate H.
  - intros H; vm_compute in H; discriminate H.
  - intros H; vm_compute in H; discriminate H.
  - intros p [= <-] H; vm_compute in H; discriminate H.
Defined.

(* ================================================================== *)
(** * Further properties of the hostmask resolver *)
(* ================================================================== *)

Lemma first_occurrence (c : codepoint) (s : str) :
  In c s -> exists a r, s = a ++ c :: r /\ ~ In c a.
Proof.
  induction s as [|x s IH]; [intros []|].
  destruct (N.eq_dec x c) as [->|Hx].
  - intros _. exists [], s. split; [reflexivity|intros []].
  - intros [E|H]; [contradiction|].
    destruct (IH H) as (a & r & -> & Ha). exists (x :: a), r.
    split; [reflexivity|]. intros [E|H']; [contradiction|now apply Ha].
Qed.

Lemma In_dec_contains (c : codepoint) (s : str) : {In c s} + {~ In c s}.
Proof.
  destruct (contains c s) eqn:E.
  - left. now apply contains_In.
  - right. intros H. apply contains_In in H. congruence.
Qed.

Lemma from_hostmask_trichotomy :
  forall s : str,
    ((~ In User.bang s \/ ~ In User.at_sign s)
     /\ User.from_hostmask s = Returned (User.__init__ None None s))
    \/ (exists n x h,
          s = n ++ User.bang :: x ++ User.at_sign :: h
          /\ ~ In User.bang n /\ ~ In User.at_sign x
          /\ User.from_hostmask s
             = Returned (User.__init__ (Some n) (Some x) h))
    \/ (exists a r,
          s = a ++ User.bang :: r
          /\ ~ In User.bang a /\ In User.at_sign a /\ ~ In User.at_sign r
          /\ User.from_hostmask s = Raised ValueError).
Proof.
  intros s.
  destruct (In_dec_contains User.bang s) as [Hb|Hb];
    [|left; split; [now left|apply from_hostmask_bare; now left]].
  destruct (In_dec_contains User.at_sign s) as [Ha|Ha];
    [|left; split; [now right|apply from_hostmask_bare; now right]].
  right. destruct (first_occurrence _ _ Hb) as (a & r & -> & Hna).
  destruct (In_dec_contains User.at_sign r) as [Hr|Hr].
  - left. destruct (first_occurrence _ _ Hr) as (x & h & -> & Hnx).
    exists a, x, h. split; [reflexivity|]. split; [exact Hna|].
    split; [exact Hnx|]. now apply from_hostmask_well_formed.
  - right. exists a, r. split; [reflexivity|]. split; [exact Hna|].
    assert (Haa : In User.at_sign a).
    { apply in_app_or in Ha as [H|[E|H]]; [exact H|discriminate E|contradiction]. }
    split; [exact Haa|]. split; [exact Hr|].
    now apply from_hostmask_no_at_after_bang.
Qed.

(** X10. [from_hostmask] does one of three things, and which one is
    decided by the text alone: a text without [!] or without [@] becomes
    a bare host; a text with an [@] after its first [!] is split at that
    [!] and at the first [@] after it; and a text with [!] and [@] but
    no [@] after the first [!] makes it raise [ValueError]. *)
Theorem from_hostmask_cases :
  forall s : str,
    ((~ In User.bang s \/ ~ In User.at_sign s)
     /\ User.from_hostmask s = Returned (User.__init__ None None s))
    \/ (exists n x h,
          s = n ++ User.bang :: x ++ User.at_sign :: h
          /\ ~ In User.bang n /\ ~ In User.at_sign x
          /\ User.from_hostmask s
             = Returned (User.__init__ (Some n) (Some x) h))
    \/ (exists a r,
          s = a ++ User.bang :: r
          /\ ~ In User.bang a /\ In User.at_sign a /\ ~ In User.at_sign r
          /\ User.from_hostmask s = Raised ValueError).
Proof. exact from_hostmask_trichotomy. Qed.

Lemma hostmask_init n x h :
  User.hostmask (User.__init__ (Some n) (Some x) h)
  = n ++ User.bang :: x ++ User.at_sign :: h.
Proof.
  reflexivity.
Qed.

(** X11. Parsing and formatting a hostmask are inverse to each other:
    the [hostmask] field of an identity that [from_hostmask] returns with
    a nick is the text that was parsed, and the hostmask of an identity
    built from a nick without [!], a user without [@] and any host parses
    back to that identity. *)
Theorem hostmask_round_trip :
  (forall (s : str) (u : User.t),
     User.from_hostmask s = Returned u ->
     User.nick u <> None ->
     User.hostmask u = s /\ User.user u <> None)
  /\ (forall n x h : str,
        ~ In User.bang n -> ~ In User.at_sign x ->
        User.from_hostmask (User.hostmask (User.__init__ (Some n) (Some x) h))
        = Returned (User.__init__ (Some n) (Some x) h)).
Proof.
  split.
  - intros s u Hu Hn.
    destruct (from_hostmask_trichotomy s)
      as [[_ E]|[(n & x & h & -> & _ & _ & E)|(a & r & _ & _ & _ & _ & E)]];
      rewrite E in Hu.
    + injection Hu as <-. now elim Hn.
    + injection Hu as <-. split; [apply hostmask_init|discriminate].
    + discriminate.
  - intros n x h Hn Hx. rewrite hostmask_init.
    now apply from_hostmask_well_formed.
Qed.

Lemma hostmask_round_trip_witness :
  User.from_hostmask
    (User.hostmask (User.__init__ (Some (lit "ni@ck")) (Some (lit "us!er"))
                                  (lit "ho!st@x")))
  = Returned (User.__init__ (Some (lit "ni@ck")) (Some (lit "us!er"))
                            (lit "ho!st@x")).
Proof.
  apply (proj2 hostmask_round_trip (lit "ni@ck") (lit "us!er") (lit "ho!st@x")).
  - intros H; vm_compute in H; intuition discriminate.
  - intros H; vm_compute in H; intuition discriminate.
Defined.

(** X12. The identity of a bare host has no nick and no user, and its
    [hostmask] field is the text [None!None@<host>]; parsing that field
    again gives an identity whose nick and user are the text [None]. *)
Theorem bare_host_reads_back_as_None :
  forall s : str,
    ~ In User.bang s \/ ~ In User.at_sign s ->
    exists u,
      User.from_hostmask s = Returned u
      /\ User.nick u = None /\ User.user u = None /\ User.host u = s
      /\ User.hostmask u = lit "None!None@" ++ s
      /\ User.from_hostmask (User.hostmask u)
         = Returned (User.__init__ (Some (lit "None")) (Some (lit "None")) s).
Proof.
  intros s H. exists (User.__init__ None None s).
  split; [now apply from_hostmask_bare|].
  repeat split.
Qed.

Lemma bare_host_reads_back_as_None_witness :
  exists u,
    User.from_hostmask (lit "irc.server.net") = Returned u
    /\ User.nick u = None /\ User.user u = None
    /\ User.host u = lit "irc.server.net"
    /\ User.hostmask u = lit "None!None@" ++ lit "irc.server.net"
    /\ User.from_hostmask (User.hostmask u)
       = Returned (User.__init__ (Some (lit "None")) (Some (lit "None"))
                                 (lit "irc.server.net")).
Proof.
  apply (bare_host_reads_back_as_None (lit "irc.server.net")).
  left. intros H; vm_compute in H; intuition discriminate.
Defined.

(** X13. [get_user] hands back the text itself when it has no [!] or no
    [@]; otherwise it hands back what [from_hostmask] returns, an
    identity with nick and user whose [hostmask] is the text, or raises
    [ValueError] as [from_hostmask] does. It never returns an identity
    without nick. *)
Theorem get_user_cases :
  forall s : str,
    (get_user s = Returned (inl s)
     /\ (~ In User.bang s \/ ~ In User.at_sign s))
    \/ (exists u,
          get_user s = Returned (inr u)
          /\ User.from_hostmask s = Returned u
          /\ User.nick u <> None /\ User.user u <> None
          /\ User.hostmask u = s)
    \/ (get_user s = Raised ValueError
        /\ User.from_hostmask s = Raised ValueError).
Proof.
  intros s. unfold get_user.
  destruct (from_hostmask_trichotomy s)
    as [[B E]|[(n & x & h & -> & Hn & Hx & E)|(a & r & -> & Ha & Haa & Hr & E)]].
  - left. split; [|exact B].
    destruct (contains User.bang s) eqn:E1;
      [|reflexivity].
    destruct (contains User.at_sign s) eqn:E2; [|reflexivity].
    apply contains_In in E1, E2. tauto.
  - right. left. eexists. rewrite E.
    assert (E1 : contains User.bang
                   (n ++ User.bang :: x ++ User.at_sign :: h) = true).
    { apply contains_In, in_or_app. right. now left. }
    assert (E2 : contains User.at_sign
                   (n ++ User.bang :: x ++ User.at_sign :: h) = true).
    { apply contains_In, in_or_app. right. right. apply in_or_app. right.
      now left. }
    rewrite E1, E2. cbn [negb orb]. split; [reflexivity|].
    split; [reflexivity|]. split; [discriminate|]. split; [discriminate|].
    apply hostmask_init.
  - right. right. rewrite E.
    assert (E1 : contains User.bang (a ++ User.bang :: r) = true).
    { apply contains_In, in_or_app. right. now left. }
    assert (E2 : contains User.at_sign (a ++ User.bang :: r) = true).
    { apply contains_In, in_or_app. now left. }
    rewrite E1, E2. cbn [negb orb]. split; reflexivity.
Qed.

(* ================================================================== *)
(** * Further properties of connecting and reconnecting *)
(* ================================================================== *)

(** Running a method on an object of the heap. *)
Lemma at_lookup {A} (r : ref) (m : M Local A) h ws b l c :
  h !! r = Some c ->
  at_ r m {| heap := h; wrappers := ws; bus := b; loop := l |}
  = (fst (m {| this := c; signals := b; timers := l |}),
     {| heap :=
          <[r := this (snd (m {| this := c; signals := b; timers := l |}))]> h;
        wrappers := ws;
        bus := signals (snd (m {| this := c; signals := b; timers := l |}));
        loop := timers (snd (m {| this := c; signals := b; timers := l |}))
     |}).
Proof.
  intros H. unfold at_. cbn [heap wrappers bus loop]. rewrite H.
  now destruct (m _) as [res s].
Qed.

Lemma wrapper_protocol_lookup cw wr h ws b l :
  ws !! cw = Some wr ->
  wrapper_protocol cw {| heap := h; wrappers := ws; bus := b; loop := l |}
  = (Returned (protocol wr),
     {| heap := h; wrappers := ws; bus := b; loop := l |}).
Proof. intros H. unfold wrapper_protocol. cbn [wrappers]. now rewrite H. Qed.

(** X14. [connect] never fails on a network that accepts the connection.
    It makes one connection and one wrapper that point to each other;
    the connection carries the parameters of the call, which are also
    the peer of its transport, and starts with nothing sent, an empty
    queue, an empty buffer and no nickname; [connected] is emitted once
    and one drain timer is started; the objects and wrappers that were
    there stay as they were. *)
Theorem connect_links_wrapper_and_connection :
  forall (server : str) (port : N) (use_ssl : bool) (w : World),
    let info := {| host := server; port := port; ssl := use_ssl |} in
    let cw := length (wrappers w) in
    let p := length (heap w) in
    exists w' c,
      connect server port use_ssl w = (Returned cw, w')
      /\ wrappers w' !! cw = Some {| protocol := p |}
      /\ heap w' !! p = Some c
      /\ wrapper c = Some cw
      /\ server_info c = Some info
      /\ transport c = {| peer := info; sent := [] |}
      /\ queue c = [] /\ buf c = [] /\ nickname c = []
      /\ (forall r c0, heap w !! r = Some c0 -> heap w' !! r = Some c0)
      /\ (forall v wr, wrappers w !! v = Some wr -> wrappers w' !! v = Some wr)
      /\ bus w' = bus w ++ [connected p]
      /\ loop w' = loop w ++ [timer p].
Proof.
  intros server port use_ssl [h ws b l] info cw p.
  eexists _, _. split; [apply connect_result|].
  cbn [heap wrappers bus loop].
  split; [now apply list_lookup_middle|].
  split; [now apply list_lookup_middle|].
  repeat (split; [reflexivity|]).
  split; [|split; [|split; reflexivity]].
  - intros r c0 H. rewrite lookup_app_l; [exact H|].
    now apply lookup_lt_Some in H.
  - intros v wr H. rewrite lookup_app_l; [exact H|].
    now apply lookup_lt_Some in H.
Qed.

Section Loss.

Variable str_upper : str -> str.

Lemma reconnect_fresh cw wr c info w :
  wrappers w !! cw = Some wr ->
  heap w !! protocol wr = Some c ->
  server_info c = Some info ->
  exists w',
    reconnect str_upper (Some cw) w = (Returned tt, w')
    /\ wrappers w' !! cw = Some {| protocol := length (heap w) |}
    /\ heap w' !! length (heap w)
       = Some (opened {| peer := info; sent := [] |} blank)
    /\ (forall r c0, heap w !! r = Some c0 -> heap w' !! r = Some c0)
    /\ (forall v, v <> cw -> wrappers w' !! v = wrappers w !! v)
    /\ bus w' = bus w ++ [connected (length (heap w))]
    /\ loop w' = loop w ++ [timer (length (heap w))].
Proof.
  destruct w as [h ws b l]. cbn [heap wrappers bus loop].
  intros Hw Hc Hi.
  eexists. split.
  - unfold reconnect. cbn [or_raise]. rewrite bind_ret.
    rewrite (bind_returned _ _ _ _ _ (wrapper_protocol_lookup _ _ _ _ _ _ Hw)).
    unfold bind at 1. rewrite (at_lookup _ _ _ _ _ _ _ Hc).
    rewrite (getattr_server_info_set str_upper c info b l Hi).
    cbn [fst snd this signals timers]. rewrite list_insert_id by exact Hc.
    unfold bind at 1, ret at 1.
    rewrite (bind_returned _ _ _ _ _ (create_connection_opens info _ _ _ _)).
    reflexivity.
  - cbn [heap wrappers bus loop].
    split; [apply list_lookup_insert_eq; now apply lookup_lt_Some in Hw|].
    split; [now apply list_lookup_middle|].
    split; [|split; [|split; reflexivity]].
    + intros r c0 H. rewrite lookup_app_l; [exact H|].
      now apply lookup_lt_Some in H.
    + intros v Hv. apply list_lookup_insert_ne. congruence.
Qed.

End Loss.

(** X15. A reconnect through a wrapper whose connection carries its
    parameters succeeds: it opens a new connection to the same peer and
    repoints the wrapper, and only that wrapper, to it. The new
    connection starts from nothing (empty queue and buffer, no nickname,
    nothing sent): lines still queued on the old connection are not
    carried over. The old connection and every other object stay on the
    heap as they were; [connected] is emitted once and one more drain
    timer is started. *)
Theorem reconnect_opens_a_fresh_connection :
  forall (str_upper : str -> str) (cw : wref) (wr : IRCProtocolWrapper)
         (c : IRCProtocol) (info : ServerInfo) (w : World),
    wrappers w !! cw = Some wr ->
    heap w !! protocol wr = Some c ->
    server_info c = Some info ->
    exists w',
      reconnect str_upper (Some cw) w = (Returned tt, w')
      /\ wrappers w' !! cw = Some {| protocol := length (heap w) |}
      /\ heap w' !! length (heap w)
         = Some (opened {| peer := info; sent := [] |} blank)
      /\ (forall r c0, heap w !! r = Some c0 -> heap w' !! r = Some c0)
      /\ (forall v, v <> cw -> wrappers w' !! v = wrappers w !! v)
      /\ bus w' = bus w ++ [connected (length (heap w))]
      /\ loop w' = loop w ++ [timer (length (heap w))].
Proof. exact reconnect_fresh. Qed.

Lemma reconnect_opens_a_fresh_connection_witness :
  exists w',
    reconnect ascii_upper (Some O) example_world = (Returned tt, w')
    /\ wrappers w' !! O = Some {| protocol := length (heap example_world) |}
    /\ heap w' !! length (heap example_world)
       = Some (opened {| peer := example_info; sent := [] |} blank)
    /\ (forall r c0,
          heap example_world !! r = Some c0 -> heap w' !! r = Some c0)
    /\ (forall v, v <> O -> wrappers w' !! v = wrappers example_world !! v)
    /\ bus w' = bus example_world ++ [connected (length (heap example_world))]
    /\ loop w' = loop example_world ++ [timer (length (heap example_world))].
Proof.
  apply (reconnect_opens_a_fresh_connection ascii_upper O {| protocol := O |}
           example_connection example_info example_world).
  - reflexivity.
  - reflexivity.
  - reflexivity.
Defined.

(** X16. A reconnect that fails changes nothing: handed [None], or a
    wrapper that does not exist, it raises [AttributeError]; handed a
    wrapper whose connection carries no [server_info], it raises
    [TypeError]; in each case no connection is opened, no signal is
    emitted and the wrapper points where it pointed. *)
Theorem reconnect_failures_change_nothing :
  forall str_upper : str -> str,
    (forall w : World, reconnect str_upper None w = (Raised AttributeError, w))
    /\ (forall (cw : wref) (w : World),
          wrappers w !! cw = None ->
          reconnect str_upper (Some cw) w = (Raised AttributeError, w))
    /\ (forall (cw : wref) (wr : IRCProtocolWrapper) (c : IRCProtocol)
               (w : World),
          wrappers w !! cw = Some wr ->
          heap w !! protocol wr = Some c ->
          server_info c = None ->
          reconnect str_upper (Some cw) w = (Raised TypeError, w)).
Proof.
  intros up. split; [reflexivity|]. split.
  - intros cw [h ws b l]. cbn [wrappers]. intros H.
    unfold reconnect. cbn [or_raise]. rewrite bind_ret.
    unfold bind, wrapper_protocol. cbn [wrappers]. now rewrite H.
  - intros cw wr c [h ws b l]. cbn [heap wrappers]. intros Hw Hc Hi.
    unfold reconnect. cbn [or_raise]. rewrite bind_ret.
    rewrite (bind_returned _ _ _ _ _ (wrapper_protocol_lookup _ _ _ _ _ _ Hw)).
    unfold bind at 1. rewrite (at_lookup _ _ _ _ _ _ _ Hc).
    destruct (getattr_server_info_unset up c b l Hi) as [f ->].
    cbn [fst snd this signals timers]. rewrite list_insert_id by exact Hc.
    reflexivity.
Qed.

(** The second reconnect through the wrapper of [example_world]. *)
Lemma reconnect_failures_change_nothing_witness :
  reconnect ascii_upper (Some O) example_world_reconnected
  = (Raised TypeError, example_world_reconnected).
Proof.
  apply (proj2 (proj2 (reconnect_failures_change_nothing ascii_upper))
           O {| protocol := 1%nat |}
           (opened {| peer := example_info; sent := [] |} blank)
           example_world_reconnected).
  - reflexivity.
  - reflexivity.
  - reflexivity.
Defined.



(** X18. When a connection without wrapper loses its transport (as the
    connections made by [reconnect] are), [connection-lost] is emitted
    with [None] as sender, the reaction raises [AttributeError], and no
    connection is opened: heap, wrappers and timers stay as they were. *)
Theorem connection_lost_without_wrapper :
  forall (str_upper : str -> str) (self : ref) (c : IRCProtocol) (w : World),
    heap w !! self = Some c ->
    wrapper c = None ->
    exists w',
      connection_lost str_upper self w = (Raised AttributeError, w')
      /\ heap w' = heap w /\ wrappers w' = wrappers w /\ loop w' = loop w
      /\ bus w' = bus w ++ [connection_lost_signal None].
Proof.
  intros up self c [h ws b l]. cbn [heap wrappers bus loop]. intros Hs Hw.
  eexists. split.
  - unfold connection_lost. unfold bind at 1.
    rewrite (at_lookup _ _ _ _ _ _ _ Hs).
    cbv beta iota delta [bind self_ get ret fst snd].
    cbn [this signals timers]. rewrite list_insert_id by exact Hs.
    rewrite Hw. rewrite (at_lookup _ _ _ _ _ _ _ Hs).
    cbn [fst snd send modify this signals timers].
    rewrite list_insert_id by exact Hs. reflexivity.
  - cbn [heap wrappers bus loop]. auto.
Qed.

Lemma connection_lost_without_wrapper_witness :
  exists w',
    connection_lost ascii_upper 1%nat example_world_reconnected
    = (Raised AttributeError, w')
    /\ heap w' = heap example_world_reconnected
    /\ wrappers w' = wrappers example_world_reconnected
    /\ loop w' = loop example_world_reconnected
    /\ bus w' = bus example_world_reconnected ++ [connection_lost_signal None].
Proof.
  apply (connection_lost_without_wrapper ascii_upper 1%nat
           (opened {| peer := example_info; sent := [] |} blank)
           example_world_reconnected).
  - reflexivity.
  - reflexivity.
Defined.

(** X19. The wrapper is a stable handle: after a reconnect, a [writeln]
    through the wrapper enqueues on the new connection, and the old
    connection, its queue included, is as it was. *)
Theorem wrapper_forwards_to_the_new_connection :
  forall (str_upper : str -> str) (cw : wref) (wr : IRCProtocolWrapper)
         (c : IRCProtocol) (info : ServerInfo) (l : line) (w : World),
    wrappers w !! cw = Some wr ->
    heap w !! protocol wr = Some c ->
    server_info c = Some info ->
    exists w',
      (reconnect str_upper (Some cw) ;; via_wrapper cw (fun _ => writeln l)) w
      = (Returned tt, w')
      /\ heap w' !! length (heap w)
         = Some (set_queue [l] (opened {| peer := info; sent := [] |} blank))
      /\ heap w' !! protocol wr = Some c.
Proof.
  intros up cw wr c info l w Hw Hc Hi.
  destruct (reconnect_fresh up cw wr c info w Hw Hc Hi)
    as (w1 & Hr & H1 & H2 & H3 & _ & _ & _).
  rewrite (bind_returned _ _ _ _ _ Hr).
  destruct w1 as [h1 ws1 b1 l1]. cbn [heap wrappers] in *.
  unfold via_wrapper.
  rewrite (bind_returned _ _ _ _ _ (wrapper_protocol_lookup _ _ _ _ _ _ H1)).
  cbn [protocol]. rewrite (at_lookup _ _ _ _ _ _ _ H2).
  eexists. split; [reflexivity|]. cbn [heap fst snd].
  split.
  - apply list_lookup_insert_eq. now apply lookup_lt_Some in H2.
  - rewrite list_lookup_insert_ne.
    + now apply H3.
    + apply lookup_lt_Some in Hc. lia.
Qed.

Lemma wrapper_forwards_to_the_new_connection_witness :
  exists w',
    (reconnect ascii_upper (Some O)
     ;; via_wrapper O (fun _ => writeln (Str (lit "JOIN #chan"))))
      example_world
    = (Returned tt, w')
    /\ heap w' !! length (heap example_world)
       = Some (set_queue [Str (lit "JOIN #chan")]
                 (opened {| peer := example_info; sent := [] |} blank))
    /\ heap w' !! protocol {| protocol := O |} = Some example_connection.
Proof.
  apply (wrapper_forwards_to_the_new_connection ascii_upper O
           {| protocol := O |} example_connection example_info
           (Str (lit "JOIN #chan")) example_world).
  - reflexivity.
  - reflexivity.
  - reflexivity.
Defined.
